(** * http-header-value: quoting and trusted proxy forwarding reports

    A shallow embedding of [hthvQuote] (the conditional quoter) and of
    [HttpForwardRep] (src/headers/http-forward-rep.ts): the trust-chain walk
    [HttpForwardRep.by], the header dispatcher [HttpForwardRep.parse] and the
    [X-Forwarded-...] fallback [hthvXForwardedItems]. *)

From Stdlib Require Import ZArith Ascii String List Lia.
From stdpp Require Import base option list strings gmap fin_maps.
From stdpp Require Import pretty.

Local Open Scope string_scope.
Local Open Scope Z_scope.
#[local] Set Warnings "-register-all".

(** ** JavaScript primitives used by the code *)

Module Js.

(** [ToInt32] and [ToUint32] of an integral number. *)
Definition toInt32 (z : Z) : Z := (z + 2 ^ 31) mod 2 ^ 32 - 2 ^ 31.
Definition toUint32 (z : Z) : Z := z mod 2 ^ 32.

(** [a | b], [a & b] and [a >>> k] on numbers. *)
Definition bor (a b : Z) : Z := Z.lor (toInt32 a) (toInt32 b).
Definition band (a b : Z) : Z := Z.land (toInt32 a) (toInt32 b).
Definition ushr (a k : Z) : Z := Z.shiftr (toUint32 a) (Z.land k 31).

(** Truthiness of a number that is not NaN and of a string. *)
Definition truthy_num (z : Z) : bool := negb (z =? 0).
Definition truthy_str (s : string) : bool :=
  match s with EmptyString => false | String _ _ => true end.

(** [a || b] where [a] is a string or [undefined] and [b] a string. *)
Definition or_else (a : option string) (b : string) : string :=
  match a with
  | Some s => if truthy_str s then s else b
  | None => b
  end.

(** [obj[k] = v] on a plain object whose values are strings: the key
    [__proto__] reaches the prototype setter, which ignores a string. *)
Definition set_prop (k v : string) (obj : gmap string string)
  : gmap string string :=
  if decide (k = "__proto__") then obj else <[k := v]> obj.

End Js.

(** ** The quoter: [hthvQuote]

    A character is one code unit of the string. Units above 0xFF are not
    modelled apart: the code treats them as it treats every unit above
    0x7F, by the delimiter table alone. *)

Definition dquote : ascii := "034"%char.
Definition bslash : ascii := "092"%char.
Definition space : ascii := " "%char.

Definition char_code (c : ascii) : Z := Z.of_N (N_of_ascii c).

Section Quote.

(** Truthiness of [delimiters[c]]; the table itself (delimiters.impl) is
    not part of the sources, so every result below holds for any table. *)
Variable delimiters : ascii -> bool.

(** [c >= '\u0000' && c <= ' ' || delimiters[c] || c === '\u007f'] *)
Definition needs_quote (c : ascii) : bool :=
  ((0 <=? char_code c) && (char_code c <=? 32))
  || delimiters c
  || (char_code c =? 127).

(** [c] is the backslash or the double quote. *)
Definition needs_escape (c : ascii) : bool :=
  Ascii.eqb c bslash || Ascii.eqb c dquote.

(** The body of the [for] loop, from index [i] on; [rest] is what is left
    of [str] at [i], so its head is [str[i]]. The result is the final
    [(escaped, quote)]. *)
Fixpoint quote_loop (str : string) (i : nat) (rest : string)
         (escaped : option string) (quote : bool) : option string * bool :=
  match rest with
  | EmptyString => (escaped, quote)
  | String c rest' =>
      if needs_quote c then
        let escaped' :=
          if needs_escape c then
            let buf :=
              match escaped with
              | Some e => if Js.truthy_str e then e else substring 0 i str
              | None => substring 0 i str
              end in
            Some (buf +:+ String bslash (String c EmptyString))
          else escaped in
        quote_loop str (S i) rest' escaped' true
      else
        let escaped' :=
          match escaped with
          | Some e =>
              if Js.truthy_str e then Some (e +:+ String c EmptyString)
              else escaped
          | None => None
          end in
        quote_loop str (S i) rest' escaped' quote
  end.

Definition hthvQuote (str : string) : string :=
  if negb (Js.truthy_str str) then String dquote (String dquote EmptyString)
  else
    let '(escaped, quote) := quote_loop str 0 str None false in
    if quote then
      String dquote
        (match escaped with Some e => e | None => str end
         +:+ String dquote EmptyString)
    else str.

(** What the loop appends to the buffer for the characters of [rest] once
    the buffer exists: an escaped character with its backslash, a
    character that only forces quoting not at all, any other one as is. *)
Fixpoint buffered (rest : string) : string :=
  match rest with
  | EmptyString => EmptyString
  | String c rest' =>
      (if needs_quote c then
         if needs_escape c then String bslash (String c EmptyString)
         else EmptyString
       else String c EmptyString) +:+ buffered rest'
  end.

(** The buffer the loop ends with when it starts without one, [pre]
    being the part of the string already scanned. *)
Fixpoint first_escape (pre rest : string) : option string :=
  match rest with
  | EmptyString => None
  | String c rest' =>
      if needs_quote c && needs_escape c then
        Some (pre +:+ String bslash (String c EmptyString) +:+ buffered rest')
      else first_escape (pre +:+ String c EmptyString) rest'
  end.

(** A character that the loop escapes. *)
Definition escaped_char (c : ascii) : bool := needs_quote c && needs_escape c.

End Quote.

Fixpoint str_existsb (f : ascii -> bool) (s : string) : bool :=
  match s with
  | EmptyString => false
  | String c s' => f c || str_existsb f s'
  end.

Fixpoint str_forallb (f : ascii -> bool) (s : string) : bool :=
  match s with
  | EmptyString => true
  | String c s' => f c && str_forallb f s'
  end.

(** The form the documentation promises for a quoted string: every
    backslash and double quote preceded by one backslash, the whole in one
    pair of double quotes. *)
Fixpoint escape_all (s : string) : string :=
  match s with
  | EmptyString => EmptyString
  | String c s' =>
      if Ascii.eqb c bslash || Ascii.eqb c dquote
      then String bslash (String c (escape_all s'))
      else String c (escape_all s')
  end.

Definition quoted_form (s : string) : string :=
  String dquote (escape_all s +:+ String dquote EmptyString).

(** ** Header items

    The fields are those of [HthvPartial] (the item type itself is declared
    in hthv-item, which is not part of the sources): marker [$], name [n],
    tag [t], value [v],
    extension flag [x], parameter index [p] keyed by parameter name, and
    parameter list [pl] with all the parameters in order. A parameter is
    an item again. *)

Module Item.

Inductive HthvItem : Type :=
  Mk {
    kind : option string;
    n : option string;
    t : option string;
    v : string;
    x : bool;
    p : gmap string HthvItem;
    pl : list HthvItem
  }.

End Item.

Abbreviation HthvItem := Item.HthvItem.

(** [HthvPartial]: only the value is required. *)
Record HthvPartial : Type :=
  MkPartial {
    part_kind : option string;
    part_n : option string;
    part_t : option string;
    part_v : string;
    part_x : option bool;
    part_p : option (gmap string HthvItem);
    part_pl : option (list HthvItem)
  }.

(** The object literals [{ n, v }] and [{ n, v, p, pl }] of the code. *)
Definition partial_nv (n v : string) : HthvPartial :=
  MkPartial None (Some n) None v None None None.

Definition partial_nvp (n v : string) (p : gmap string HthvItem)
           (pl : list HthvItem) : HthvPartial :=
  MkPartial None (Some n) None v None (Some p) (Some pl).

(** [p.k?.v] *)
Definition param_v (p : gmap string HthvItem) (k : string) : option string :=
  Item.v <$> p !! k.

(** The index that a parameter list determines: a fold from the left,
    keyed by parameter name, a later parameter replacing an earlier one of
    the same name. *)
Definition index_of_list (pl : list HthvItem) : gmap string HthvItem :=
  foldl (fun idx prm =>
           match Item.n prm with
           | Some k => <[k := prm]> idx
           | None => idx
           end) ∅ pl.

(** The invariant of the model: the index of an item is the one its
    parameter list determines. *)
Definition index_invariant (item : HthvItem) : Prop :=
  Item.p item = index_of_list (Item.pl item).

(** Modelled from the spec: [hthvItem] (hthv-partial.impl) is not part of
    the sources. It builds an item from a partial description: an omitted
    parameter list and index are empty, and when only one of the two is
    given the other one is derived from it; the other fields are kept.
    Beyond the words of the spec, an item with a name is found under that
    name in its own index: the code relies on it, for it reads the address
    of a hop through [p.for] (line 147) from records that it builds as
    [{ n: 'for', v }] with a [p] that has no [for] (lines 124-129 and 246).
    The entry is the item as it is without that entry, the index of an
    inductive value not being able to hold the value itself. *)
Definition hthvItem (part : HthvPartial) : HthvItem :=
  let '(p, pl) :=
    match part_p part, part_pl part with
    | Some p, Some pl => (p, pl)
    | None, Some pl => (index_of_list pl, pl)
    | Some p, None => (p, (map_to_list p).*2)
    | None, None => (∅, [])
    end in
  let item :=
    Item.Mk (part_kind part) (part_n part) (part_t part) (part_v part)
            (default false (part_x part)) p pl in
  match part_n part with
  | Some n =>
      if Js.truthy_str n then
        Item.Mk (part_kind part) (part_n part) (part_t part) (part_v part)
                (default false (part_x part)) (<[n := item]> p) pl
      else item
  | None => item
  end.

(** The index of a named item that [hthvItem] builds: apart from the entry
    of its own name, it is the one its parameter list determines, and that
    entry has the value of the item. *)
Definition index_invariant_own (item : HthvItem) : Prop :=
  match Item.n item with
  | Some n =>
      if Js.truthy_str n then
        delete n (Item.p item) = delete n (index_of_list (Item.pl item))
        /\ param_v (Item.p item) n = Some (Item.v item)
      else index_invariant item
  | None => index_invariant item
  end.

(** ** Trust policy *)

(** Modelled from the spec: the enumeration [HttpForwardTrustMask]
    (http-forward-trust) is not part of the sources. The mask has two bits;
    [TrustPrevious], shifted right by one, is [TrustCurrent]. *)
Definition TrustCurrent : Z := 1.
Definition TrustPrevious : Z := 2.

(** The policy: from a record and its hop distance to a mask. *)
Definition Checker : Type := HthvItem -> Z -> Z.

(** Modelled from the spec: [HttpForwardTrust] and [HttpForwardTrust.by]
    (http-forward-trust) are not part of the sources. A trust configuration
    has the optional flag [xForwarded] that [parse] reads, and determines
    the policy that [HttpForwardTrust.by] returns for it. *)
Record HttpForwardTrust : Type :=
  MkTrust {
    xForwarded : option bool;
    trust_checker : Checker
  }.

Definition HttpForwardTrust_by (trust : HttpForwardTrust) : Checker :=
  trust_checker trust.

(** ** Forwarding report: [HttpForwardRep] *)

(** [HttpForwardRep.Defaults]: the fields [by], [for], [host], [proto]. *)
Record Defaults : Type :=
  MkDefaults {
    def_by : string;
    def_for : string;
    def_host : string;
    def_proto : string
  }.

(** A report is an object with string values. *)
Abbreviation HttpForwardRep := (gmap string string).

(** A header value is one string or several. *)
Inductive HeaderValue : Type :=
  | Single (s : string)
  | Multiple (l : list string).

(** [HttpForwardRep.Headers], the four headers the code reads. *)
Record Headers : Type :=
  MkHeaders {
    forwarded : option HeaderValue;
    x_forwarded_for : option HeaderValue;
    x_forwarded_host : option HeaderValue;
    x_forwarded_proto : option HeaderValue
  }.

(** Truthiness of an optional header value: an iterable is an object. *)
Definition truthy_header (h : option HeaderValue) : bool :=
  match h with
  | Some (Single s) => Js.truthy_str s
  | Some (Multiple _) => true
  | None => false
  end.

(** The variables that the body of [HttpForwardRep.by] updates. *)
Record Walk : Type :=
  MkWalk {
    trustedBy : string;
    trustedFor : string;
    trustedHost : string;
    trustedProto : string;
    trusted : HthvItem;
    trustedFlag : Z;
    index : Z
  }.

(** The record built from the defaults, the last item of the chain. *)
Definition last_item (defaults : Defaults) : HthvItem :=
  let lastHost := hthvItem (partial_nv "host" (def_host defaults)) in
  let lastProto := hthvItem (partial_nv "proto" (def_proto defaults)) in
  hthvItem (partial_nvp "for" (def_for defaults)
              (<["proto" := lastProto]> (<["host" := lastHost]> ∅))
              [lastHost; lastProto]).

(** The state before the loop. *)
Definition walk_init (trustChecker : Checker) (defaults : Defaults) : Walk :=
  let trusted := last_item defaults in
  {| trustedBy := def_by defaults;
     trustedFor := def_for defaults;
     trustedHost := def_host defaults;
     trustedProto := def_proto defaults;
     trusted := trusted;
     trustedFlag := trustChecker trusted 0;
     index := 0 |}.

(** The mask of an item, given the state left by the nearer hops. *)
Definition next_flag (trustChecker : Checker) (item : HthvItem) (st : Walk)
  : Z :=
  Js.bor (trustChecker item (index st + 1))
         (Js.ushr (Js.band (trustedFlag st) TrustPrevious) 1).

(** [!(trustedFlag & TrustCurrent)] for the mask of [item]. *)
Definition untrusted (trustChecker : Checker) (item : HthvItem) (st : Walk)
  : bool :=
  negb (Js.truthy_num (Js.band (next_flag trustChecker item st) TrustCurrent)).

(** The state at the [break]: the mask and the index are already updated. *)
Definition stop_at (trustChecker : Checker) (item : HthvItem) (st : Walk)
  : Walk :=
  {| trustedBy := trustedBy st;
     trustedFor := trustedFor st;
     trustedHost := trustedHost st;
     trustedProto := trustedProto st;
     trusted := trusted st;
     trustedFlag := next_flag trustChecker item st;
     index := index st + 1 |}.

(** The state after a trusted item. *)
Definition accept (trustChecker : Checker) (item : HthvItem) (st : Walk)
  : Walk :=
  let p := Item.p item in
  {| trustedBy := Js.or_else (param_v p "by") (trustedBy st);
     trustedFor := Js.or_else (param_v p "for") (trustedFor st);
     trustedHost := Js.or_else (param_v p "host") (trustedHost st);
     trustedProto := Js.or_else (param_v p "proto") (trustedProto st);
     trusted := item;
     trustedFlag := next_flag trustChecker item st;
     index := index st + 1 |}.

(** The loop over the items from the last one to the first: [rest] is what
    is left of the reversed list. *)
Fixpoint walk (trustChecker : Checker) (rest : list HthvItem) (st : Walk)
  : Walk :=
  match rest with
  | [] => st
  | item :: rest' =>
      if untrusted trustChecker item st then stop_at trustChecker item st
      else walk trustChecker rest' (accept trustChecker item st)
  end.

(** The number of items the loop accepts before it stops. *)
Fixpoint trusted_hops (trustChecker : Checker) (rest : list HthvItem)
         (st : Walk) : nat :=
  match rest with
  | [] => 0
  | item :: rest' =>
      if untrusted trustChecker item st then 0%nat
      else S (trusted_hops trustChecker rest' (accept trustChecker item st))
  end.

(** The named parameters of the trusted record, then its own name and
    value. *)
Definition flatten (trusted : HthvItem) : HttpForwardRep :=
  let result :=
    foldl (fun result prm =>
             match Item.n prm with
             | Some n =>
                 if Js.truthy_str n then Js.set_prop n (Item.v prm) result
                 else result
             | None => result
             end) ∅ (Item.pl trusted) in
  match Item.n trusted with
  | Some n =>
      if Js.truthy_str n then Js.set_prop n (Item.v trusted) result else result
  | None => result
  end.

(** The report built after the loop: the required fields come last. *)
Definition report_of (st : Walk) : HttpForwardRep :=
  <["proto" := trustedProto st]>
    (<["host" := trustedHost st]>
       (<["for" := trustedFor st]>
          (<["by" := trustedBy st]> (flatten (trusted st))))).

(** The report of a state does not look at the mask or at the index. *)
Definition same_fields (st1 st2 : Walk) : Prop :=
  trustedBy st1 = trustedBy st2
  /\ trustedFor st1 = trustedFor st2
  /\ trustedHost st1 = trustedHost st2
  /\ trustedProto st1 = trustedProto st2
  /\ trusted st1 = trusted st2.

(** [HttpForwardRep.by] *)
Definition HttpForwardRep_by (items : list HthvItem) (defaults : Defaults)
           (trust : HttpForwardTrust) : HttpForwardRep :=
  let trustChecker := HttpForwardTrust_by trust in
  report_of (walk trustChecker (rev items) (walk_init trustChecker defaults)).

(** The four required fields of a report. *)
Inductive Field : Type := FBy | FFor | FHost | FProto.

Definition field_name (f : Field) : string :=
  match f with
  | FBy => "by"
  | FFor => "for"
  | FHost => "host"
  | FProto => "proto"
  end.

Definition def_field (defaults : Defaults) (f : Field) : string :=
  match f with
  | FBy => def_by defaults
  | FFor => def_for defaults
  | FHost => def_host defaults
  | FProto => def_proto defaults
  end.

(** [{ ...defaults }] *)
Definition spread_defaults (defaults : Defaults) : HttpForwardRep :=
  <["proto" := def_proto defaults]>
    (<["host" := def_host defaults]>
       (<["for" := def_for defaults]>
          (<["by" := def_by defaults]> ∅))).

Section Dispatch.

(** The parsers are not part of the sources: [hthvParse] (hthv-parse),
    [hthvParseTrivial] and [hthvParseFirstTrivial]
    (hthv-parse-trivial.impl). *)
Variable hthvParse : string -> list HthvItem.
Variable hthvParseTrivial : HeaderValue -> list string.
Variable hthvParseFirstTrivial : option HeaderValue -> option string.

(** The item built for one address [v] of [X-Forwarded-For]. *)
Definition x_forwarded_item (host proto : option HthvItem) (v : string)
  : HthvItem :=
  let p : gmap string HthvItem := ∅ in
  let pl : list HthvItem := [] in
  let '(p, pl) :=
    match host with
    | Some host => (<["host" := host]> p, (pl ++ [host])%list)
    | None => (p, pl)
    end in
  let '(p, pl) :=
    match proto with
    | Some proto => (<["proto" := proto]> p, (pl ++ [proto])%list)
    | None => (p, pl)
    end in
  hthvItem (partial_nvp "for" v p pl).

(** [hthvXForwardedItems] *)
Definition hthvXForwardedItems (headers : Headers) : list HthvItem :=
  match x_forwarded_for headers with
  | Some forwardedForValue =>
      if truthy_header (Some forwardedForValue) then
        let forwardedFor := hthvParseTrivial forwardedForValue in
        let forwardedHost := hthvParseFirstTrivial (x_forwarded_host headers) in
        let forwardedProto := hthvParseFirstTrivial (x_forwarded_proto headers) in
        let host :=
          match forwardedHost with
          | Some h =>
              if Js.truthy_str h then Some (hthvItem (partial_nv "host" h))
              else None
          | None => None
          end in
        let proto :=
          match forwardedProto with
          | Some h =>
              if Js.truthy_str h then Some (hthvItem (partial_nv "proto" h))
              else None
          | None => None
          end in
        map (x_forwarded_item host proto) forwardedFor
      else []
  | None => []
  end.

(** [HttpForwardRep.parse] *)
Definition HttpForwardRep_parse (headers : Headers) (defaults : Defaults)
           (trust : HttpForwardTrust) : HttpForwardRep :=
  if truthy_header (forwarded headers) then
    let items :=
      match forwarded headers with
      | Some (Single fwd) => hthvParse fwd
      | Some (Multiple fwds) => flat_map hthvParse fwds
      | None => []
      end in
    HttpForwardRep_by items defaults trust
  else if decide (xForwarded trust = Some false) then
    spread_defaults defaults
  else
    HttpForwardRep_by (hthvXForwardedItems headers) defaults trust.

End Dispatch.

(** ** The trivial parsers *)

(** Modelled from the spec: [hthvParseTrivial] and [hthvParseFirstTrivial]
    (hthv-parse-trivial.impl) are not part of the sources. A legacy header
    is split on commas with no validation; of several values each one is
    split, in order. The first element is absent when the header is. *)
Fixpoint split_commas (s : string) : list string :=
  match s with
  | EmptyString => [EmptyString]
  | String c s' =>
      if Ascii.eqb c ","%char then EmptyString :: split_commas s'
      else
        match split_commas s' with
        | h :: t => String c h :: t
        | [] => [String c EmptyString]
        end
  end.

Definition parse_list (value : HeaderValue) : list string :=
  match value with
  | Single s => split_commas s
  | Multiple l => flat_map split_commas l
  end.

Definition parse_first (value : option HeaderValue) : option string :=
  match value with
  | Some hv => head (parse_list hv)
  | None => None
  end.

(** ** The scenarios of the specification *)

Module Scenario.

Definition defaults : Defaults :=
  MkDefaults "10.0.0.1" "10.0.0.2" "example.com" "http".

(** One hop: [for=203.0.113.5] with the parameters [host] and [proto]. *)
Definition hop : HthvItem :=
  let host := hthvItem (partial_nv "host" "api.example.com") in
  let proto := hthvItem (partial_nv "proto" "https") in
  hthvItem (partial_nvp "for" "203.0.113.5"
              (<["proto" := proto]> (<["host" := host]> ∅)) [host; proto]).

(** A policy that trusts the hop at distance 1 fully and nothing else. *)
Definition trust_first : HttpForwardTrust :=
  MkTrust None (fun _ distance => if distance =? 1 then 3 else 0).

(** A policy that trusts nothing, and one that differs from it at
    distance 0 only, where it answers with the full mask. *)
Definition trust_none : HttpForwardTrust :=
  MkTrust None (fun _ _ => 0).

Definition trust_local : HttpForwardTrust :=
  MkTrust None (fun _ distance => if distance =? 0 then 3 else 0).

(** The mask of the record of the defaults with [TrustPrevious] alone. *)
Definition trust_previous : HttpForwardTrust :=
  MkTrust None (fun _ distance => if distance =? 0 then 2 else 0).

(** The legacy headers, without [Forwarded]. *)
Definition legacy : Headers :=
  {| forwarded := None;
     x_forwarded_for := Some (Single "198.51.100.9");
     x_forwarded_host := None;
     x_forwarded_proto := Some (Single "https") |}.

(** The item that [hthvXForwardedItems] builds for them. *)
Definition legacy_item : HthvItem :=
  x_forwarded_item None (Some (hthvItem (partial_nv "proto" "https")))
                   "198.51.100.9".

(** Two hops: [hopA] is the farther one. *)
Definition hopA : HthvItem :=
  let by_ := hthvItem (partial_nv "by" "192.0.2.1") in
  let secret := hthvItem (partial_nv "secret" "s3") in
  hthvItem (partial_nvp "for" "198.51.100.7"
              (<["secret" := secret]> (<["by" := by_]> ∅)) [by_; secret]).

Definition hopB : HthvItem := hop.

End Scenario.

(** ** Further notions for the quoter *)

(** A character that forces quoting and is not escaped. *)
Definition quoting_only (delimiters : ascii -> bool) (c : ascii) : bool :=
  needs_quote delimiters c && negb (needs_escape c).

(** The text between the quotes of a quoted string is well formed when
    every backslash starts a pair and no double quote stands outside of a
    pair. *)
Fixpoint well_escaped (s : string) : bool :=
  match s with
  | EmptyString => true
  | String c s' =>
      if Ascii.eqb c bslash then
        match s' with
        | EmptyString => false
        | String _ s'' => well_escaped s''
        end
      else if Ascii.eqb c dquote then false
      else well_escaped s'
  end.

(** A delimiter table for the examples: the delimiters of RFC 7230, the
    backslash and the double quote among them. *)
Definition sample_delimiters (c : ascii) : bool :=
  str_existsb (Ascii.eqb c)
    (String dquote (String bslash "(),/:;<=>?@[]{}")).

(** ** Further notions for the resolver *)

(** The running value of a required field in a state of the loop. *)
Definition walk_field (st : Walk) (f : Field) : string :=
  match f with
  | FBy => trustedBy st
  | FFor => trustedFor st
  | FHost => trustedHost st
  | FProto => trustedProto st
  end.

(** What an accepted item does to the running value of a field. *)
Definition carry (f : Field) (acc : string) (item : HthvItem) : string :=
  Js.or_else (param_v (Item.p item) (field_name f)) acc.

(** A policy that gives every hop the full mask. *)
Definition trust_all_checker : Checker := fun _ _ => 3.

(** The value of the last parameter of the list with the name [k]. *)
Definition last_named (k : string) (pl : list HthvItem) : option string :=
  foldl (fun found prm =>
           if decide (Item.n prm = Some k) then Some (Item.v prm) else found)
        None pl.

(** ** Further notions for the dispatcher *)

(** The parameter that [hthvXForwardedItems] builds from the first value of
    a legacy header, when there is a non-empty one. *)
Definition legacy_param (name : string) (value : option string)
  : option HthvItem :=
  match value with
  | Some h =>
      if Js.truthy_str h then Some (hthvItem (partial_nv name h)) else None
  | None => None
  end.

(** ** Request information: [HthvRequestInfo.defaults]
    (src/node/hthv-request-info.ts) *)

(** What the code reads of the connection of a request: the local address
    and port, the remote address, which may be missing, and the flag
    [encrypted], which only a TLS socket has. *)
Record Socket : Type :=
  MkSocket {
    localAddress : string;
    localPort : Z;
    remoteAddress : option string;
    encrypted : option bool
  }.

(** What the code reads of a request: its connection and the [Host]
    header. *)
Record IncomingMessage : Type :=
  MkRequest {
    connection : Socket;
    header_host : option string
  }.

(** [HthvRequestInfo.defaults]; the port, an integer, is written in
    decimal by the template literal. *)
Definition HthvRequestInfo_defaults (request : IncomingMessage) : Defaults :=
  let connection := connection request in
  {| def_by := localAddress connection;
     def_for := Js.or_else (remoteAddress connection) "unknown";
     def_host :=
       Js.or_else (header_host request)
         (localAddress connection +:+ ":" +:+ pretty (localPort connection));
     def_proto :=
       match encrypted connection with
       | Some true => "https"
       | _ => "http"
       end |}.

(** * Properties *)

(** ** Strings *)

Lemma str_app_cons c s t : String c s +:+ t = String c (s +:+ t).
Proof. reflexivity. Qed.

Lemma str_app_nil_l s : EmptyString +:+ s = s.
Proof. reflexivity. Qed.

Lemma str_app_nil_r s : s +:+ EmptyString = s.
Proof.
  induction s as [|c s IH]; [reflexivity|]. now rewrite str_app_cons, IH.
Qed.

Lemma str_app_assoc s t u : (s +:+ t) +:+ u = s +:+ (t +:+ u).
Proof.
  induction s as [|c s IH]; [reflexivity|].
  now rewrite !str_app_cons, IH.
Qed.

Lemma str_app_length s t :
  String.length (s +:+ t) = (String.length s + String.length t)%nat.
Proof.
  induction s as [|c s IH]; [reflexivity|].
  rewrite str_app_cons. cbn [String.length]. now rewrite IH.
Qed.

Lemma substring_prefix pre rest :
  substring 0 (String.length pre) (pre +:+ rest) = pre.
Proof.
  induction pre as [|c pre IH].
  - destruct rest; reflexivity.
  - rewrite str_app_cons. cbn [String.length substring]. now rewrite IH.
Qed.

Lemma truthy_str_snoc e c x : Js.truthy_str (e +:+ String c x) = true.
Proof. destruct e; reflexivity. Qed.

Lemma str_forallb_app f s t :
  str_forallb f (s +:+ t) = str_forallb f s && str_forallb f t.
Proof.
  induction s as [|c s IH]; [reflexivity|].
  rewrite str_app_cons. cbn [str_forallb]. now rewrite IH, andb_assoc.
Qed.

Lemma str_existsb_false_In f s :
  str_existsb f s = false
  <-> forall c, In c (list_ascii_of_string s) -> f c = false.
Proof.
  induction s as [|a s IH]; cbn [str_existsb list_ascii_of_string In].
  - split; [intros _ c []|reflexivity].
  - rewrite orb_false_iff, IH. split.
    + intros [Ha Hs] c [<-|Hc]; auto.
    + intros H. split; [apply H; now left|intros c Hc; apply H; now right].
Qed.

(** ** The quoter *)

Section QuoteFacts.

Variable delimiters : ascii -> bool.

(** Once the buffer exists it only grows, by [buffered]. *)
Lemma quote_loop_buffered rest : forall str i e q,
  Js.truthy_str e = true ->
  quote_loop delimiters str i rest (Some e) q
  = (Some (e +:+ buffered delimiters rest),
     q || str_existsb (needs_quote delimiters) rest).
Proof.
  induction rest as [|c rest IH]; intros str i e q He.
  - cbn. now rewrite str_app_nil_r, orb_false_r.
  - cbn [quote_loop buffered str_existsb]. rewrite He.
    destruct (needs_quote delimiters c) eqn:Hq.
    + destruct (needs_escape c).
      * rewrite IH by apply truthy_str_snoc.
        now rewrite str_app_assoc, orb_true_r.
      * rewrite IH by assumption. now rewrite str_app_nil_l, orb_true_r.
    + rewrite IH by apply truthy_str_snoc.
      now rewrite str_app_assoc.
Qed.

(** Without a buffer, the loop creates it at the first character that is
    escaped, from the part of the string scanned so far. *)
Lemma quote_loop_fresh rest : forall pre q,
  quote_loop delimiters (pre +:+ rest) (String.length pre) rest None q
  = (first_escape delimiters pre rest,
     q || str_existsb (needs_quote delimiters) rest).
Proof.
  induction rest as [|c rest IH]; intros pre q.
  - cbn. now rewrite orb_false_r.
  - cbn [quote_loop first_escape str_existsb].
    destruct (needs_quote delimiters c) eqn:Hq; cbn [andb orb].
    + destruct (needs_escape c).
      * rewrite substring_prefix.
        rewrite quote_loop_buffered by apply truthy_str_snoc.
        now rewrite str_app_assoc, orb_true_r.
      * replace (pre +:+ String c rest)
          with ((pre +:+ String c EmptyString) +:+ rest)
          by now rewrite str_app_assoc.
        replace (S (String.length pre))
          with (String.length (pre +:+ String c EmptyString))
          by (rewrite str_app_length; cbn; lia).
        rewrite IH. now rewrite orb_true_r.
    + replace (pre +:+ String c rest)
        with ((pre +:+ String c EmptyString) +:+ rest)
        by now rewrite str_app_assoc.
      replace (S (String.length pre))
        with (String.length (pre +:+ String c EmptyString))
        by (rewrite str_app_length; cbn; lia).
      now rewrite IH.
Qed.

Lemma first_escape_none pre rest :
  str_existsb (escaped_char delimiters) rest = false ->
  first_escape delimiters pre rest = None.
Proof.
  revert pre. induction rest as [|c rest IH]; intros pre H; [reflexivity|].
  cbn [str_existsb] in H. apply orb_false_iff in H as [Hc Hr].
  cbn [first_escape]. fold (escaped_char delimiters c). rewrite Hc. now apply IH.
Qed.

Lemma first_escape_some pre rest e :
  first_escape delimiters pre rest = Some e ->
  exists p c tail,
    rest = p +:+ String c tail
    /\ str_existsb (escaped_char delimiters) p = false
    /\ escaped_char delimiters c = true
    /\ e = pre +:+ p +:+ String bslash (String c EmptyString)
           +:+ buffered delimiters tail.
Proof.
  revert pre. induction rest as [|c rest IH]; intros pre H; [discriminate|].
  cbn [first_escape] in H. fold (escaped_char delimiters c) in H.
  destruct (escaped_char delimiters c) eqn:Hc.
  - exists EmptyString, c, rest. repeat split; try assumption.
    rewrite !str_app_nil_l. now inversion H.
  - destruct (IH _ H) as (p & c' & tail & -> & Hp & Hc' & ->).
    exists (String c p), c', tail. repeat split; try assumption.
    + cbn [str_existsb]. now rewrite Hc, Hp.
    + now rewrite str_app_assoc, !str_app_cons, str_app_nil_l.
Qed.

(** What [hthvQuote] returns, by cases. *)
Lemma hthvQuote_cases c s :
  hthvQuote delimiters (String c s)
  = if str_existsb (needs_quote delimiters) (String c s) then
      String dquote
        (match first_escape delimiters EmptyString (String c s) with
         | Some e => e
         | None => String c s
         end +:+ String dquote EmptyString)
    else String c s.
Proof.
  unfold hthvQuote. cbn [Js.truthy_str negb].
  pose proof (quote_loop_fresh (String c s) EmptyString false) as H.
  rewrite str_app_nil_l in H. cbn [String.length] in H.
  rewrite H. reflexivity.
Qed.

(** A string is never its own buffer between two more characters: the
    characters in front of the buffer are escapable ones, and each of them
    puts at least itself into the buffer. *)
Lemma buffered_no_fixpoint r : forall w z,
  w <> EmptyString ->
  str_forallb needs_escape w = true ->
  r <> w +:+ buffered delimiters r +:+ z.
Proof.
  induction r as [|c r IH]; intros w z Hw Hesc Heq.
  - destruct w; [congruence|discriminate].
  - destruct w as [|c' w]; [congruence|].
    rewrite str_app_cons in Heq. injection Heq as <- Heq.
    cbn [str_forallb] in Hesc. apply andb_true_iff in Hesc as [Hc Hw'].
    cbn [buffered] in Heq. rewrite Hc in Heq.
    rewrite str_app_assoc, <- str_app_assoc in Heq.
    revert Heq. apply IH.
    + destruct w; [|discriminate]. rewrite str_app_nil_l.
      destruct (needs_quote delimiters c); discriminate.
    + rewrite str_forallb_app, Hw'. cbn [andb].
      destruct (needs_quote delimiters c); cbn [str_forallb];
        rewrite Hc; reflexivity.
Qed.

(** If a string followed by [c] starts with [q] and goes on with itself,
    then [c] is [q]. *)
Lemma shifted_prefix p : forall q c t rest,
  p +:+ String c t = String q (p +:+ rest) -> c = q.
Proof.
  induction p as [|x p IH]; intros q c t rest H.
  - rewrite !str_app_nil_l in H. now injection H.
  - rewrite !str_app_cons in H. injection H as <- H. eauto.
Qed.

(** A quoted result is never the input. *)
Lemma hthvQuote_quoted_neq s :
  str_existsb (needs_quote delimiters) s = true ->
  hthvQuote delimiters s <> s.
Proof.
  destruct s as [|a s]; [discriminate|]. intros Hq.
  rewrite hthvQuote_cases, Hq.
  destruct (first_escape delimiters EmptyString (String a s)) as [e|] eqn:He.
  - apply first_escape_some in He as (p & c & tail & Hs & Hp & Hc & ->).
    rewrite Hs, str_app_nil_l, !str_app_assoc. intros Heq. symmetry in Heq.
    pose proof (shifted_prefix _ _ _ _ _ Heq) as ->.
    destruct p as [|x p].
    + rewrite !str_app_nil_l in Heq. injection Heq as Heq.
      revert Heq.
      apply (buffered_no_fixpoint tail
               (String bslash (String dquote EmptyString)));
        [discriminate|reflexivity].
    + rewrite !str_app_cons in Heq. injection Heq as -> _.
      cbn [str_existsb] in Hp. rewrite Hc in Hp. discriminate.
  - intros Heq. apply (f_equal String.length) in Heq.
    cbn [String.length] in Heq. rewrite str_app_length in Heq.
    cbn [String.length] in Heq. lia.
Qed.

Lemma needs_quote_false c :
  needs_quote delimiters c = false
  <-> ~ (char_code c <= 32) /\ char_code c <> 127 /\ delimiters c = false.
Proof.
  unfold needs_quote. rewrite !orb_false_iff, andb_false_iff.
  rewrite Z.leb_gt, Z.leb_gt, Z.eqb_neq.
  assert (0 <= char_code c) by (unfold char_code; lia).
  intuition lia.
Qed.

(** The result is never the empty string. *)
Lemma hthvQuote_nonempty s : hthvQuote delimiters s <> EmptyString.
Proof.
  destruct s as [|c s]; [discriminate|]. rewrite hthvQuote_cases.
  destruct (str_existsb _ _); discriminate.
Qed.

End QuoteFacts.

(** C8: [hthvQuote s] is [s] exactly when [s] is not empty and has no
    character with a code of at most 0x20, no DEL (0x7F) and no character of
    the delimiter table, whatever that table is. *)
Theorem hthvQuote_identity_iff (delimiters : ascii -> bool) (s : string) :
  hthvQuote delimiters s = s
  <-> s <> EmptyString
      /\ forall c, In c (list_ascii_of_string s) ->
           ~ (char_code c <= 32) /\ char_code c <> 127 /\ delimiters c = false.
Proof.
  assert (Hin : str_existsb (needs_quote delimiters) s = false
                <-> forall c, In c (list_ascii_of_string s) ->
                      ~ (char_code c <= 32) /\ char_code c <> 127
                      /\ delimiters c = false).
  { rewrite str_existsb_false_In. split; intros H c Hc;
      apply needs_quote_false; auto. }
  rewrite <- Hin. split.
  - intros H. split.
    + intros ->. discriminate H.
    + destruct (str_existsb (needs_quote delimiters) s) eqn:Hq; [|reflexivity].
      now apply hthvQuote_quoted_neq in Hq.
  - intros [Hne Hq]. destruct s as [|a s]; [congruence|].
    now rewrite hthvQuote_cases, Hq.
Qed.

(** C7, evaluated on the code: for the two-character string made of a
    double quote and a space, [hthvQuote] returns neither the string itself
    nor its quoted form with the double quote escaped. When the table has
    the double quote, the space is lost; when it does not, the double quote
    is left without its backslash. *)
Theorem hthvQuote_quote_space (delimiters : ascii -> bool) :
  let s := String dquote (String space EmptyString) in
  hthvQuote delimiters s
  = (if delimiters dquote
     then String dquote (String bslash (String dquote (String dquote EmptyString)))
     else String dquote (String dquote (String space (String dquote EmptyString))))
  /\ hthvQuote delimiters s <> s
  /\ hthvQuote delimiters s <> quoted_form s.
Proof.
  cbv zeta.
  assert (H : hthvQuote delimiters (String dquote (String space EmptyString))
    = (if delimiters dquote
       then String dquote (String bslash (String dquote (String dquote EmptyString)))
       else String dquote (String dquote (String space (String dquote EmptyString))))).
  { unfold hthvQuote, quote_loop, needs_quote.
    destruct (delimiters dquote), (delimiters space); reflexivity. }
  rewrite H. split; [reflexivity|].
  destruct (delimiters dquote); split; discriminate.
Qed.

(** ** The resolver *)

(** C4: for the empty list of items the report is the defaults, field by
    field, with no other field, whatever the defaults and the policy are;
    [HttpForwardRep_by] is a total function, so the call returns. *)
Theorem by_empty_is_defaults (defaults : Defaults) (trust : HttpForwardTrust) :
  HttpForwardRep_by [] defaults trust
  = <["proto" := def_proto defaults]>
      (<["host" := def_host defaults]>
         (<["for" := def_for defaults]>
            (<["by" := def_by defaults]> ∅)))
  /\ HttpForwardRep_by [] defaults trust !! "by" = Some (def_by defaults)
  /\ HttpForwardRep_by [] defaults trust !! "for" = Some (def_for defaults)
  /\ HttpForwardRep_by [] defaults trust !! "host" = Some (def_host defaults)
  /\ HttpForwardRep_by [] defaults trust !! "proto" = Some (def_proto defaults)
  /\ forall k, k <> "by" -> k <> "for" -> k <> "host" -> k <> "proto" ->
       HttpForwardRep_by [] defaults trust !! k = None.
Proof.
  assert (H : HttpForwardRep_by [] defaults trust
    = <["proto" := def_proto defaults]>
      (<["host" := def_host defaults]>
         (<["for" := def_for defaults]>
            (<["by" := def_by defaults]> ∅)))).
  { unfold HttpForwardRep_by, report_of. cbn.
    apply map_eq. intros k. unfold Js.set_prop.
    repeat (case_decide; [discriminate|]).
    rewrite !lookup_insert, !lookup_empty. repeat case_decide; congruence. }
  rewrite H. repeat split; try reflexivity.
  intros k Hby Hfor Hhost Hproto.
  rewrite !lookup_insert_ne by congruence. apply lookup_empty.
Qed.

(** *** Masks *)

Lemma land_2_cases (y : Z) : Z.land y 2 = 0 \/ Z.land y 2 = 2.
Proof.
  destruct (Z.testbit y 1) eqn:Hb; [right|left]; apply Z.bits_inj'; intros k Hk;
    rewrite Z.land_spec; change 2 with (2 ^ 1);
    rewrite Z.pow2_bits_eqb by lia; destruct (Z.eqb_spec 1 k) as [<-|Hne];
    rewrite ?Hb, ?andb_false_r, ?Z.bits_0, ?Z.pow2_bits_eqb by lia;
    try reflexivity; try (symmetry; now apply Z.eqb_neq).
Qed.

(** The bit that a hop hands over to the next one is 0 or 1. *)
Lemma inherited_bit (flag : Z) :
  Js.ushr (Js.band flag TrustPrevious) 1 = 0
  \/ Js.ushr (Js.band flag TrustPrevious) 1 = 1.
Proof.
  unfold Js.ushr, Js.band. change (Js.toInt32 TrustPrevious) with 2.
  destruct (land_2_cases (Js.toInt32 flag)) as [-> | ->]; [left|right];
    reflexivity.
Qed.

(** A policy that trusts an item fully gives it the full mask, whatever
    the nearer hop hands over. *)
Lemma next_flag_full trustChecker item st :
  trustChecker item (index st + 1) = Z.lor TrustCurrent TrustPrevious ->
  next_flag trustChecker item st = 3.
Proof.
  intros H. unfold next_flag. rewrite H.
  destruct (inherited_bit (trustedFlag st)) as [-> | ->]; reflexivity.
Qed.

(** An item the policy gives nothing, behind a hop with the full mask,
    gets [TrustCurrent] from that hop. *)
Lemma next_flag_inherited trustChecker item st :
  trustChecker item (index st + 1) = 0 ->
  trustedFlag st = 3 ->
  next_flag trustChecker item st = TrustCurrent.
Proof. intros H Hf. unfold next_flag. rewrite H, Hf. reflexivity. Qed.

Lemma untrusted_3 trustChecker item st :
  next_flag trustChecker item st = 3 -> untrusted trustChecker item st = false.
Proof. intros H. unfold untrusted. now rewrite H. Qed.

Lemma untrusted_1 trustChecker item st :
  next_flag trustChecker item st = TrustCurrent ->
  untrusted trustChecker item st = false.
Proof. intros H. unfold untrusted. now rewrite H. Qed.

Lemma toInt32_mod (z : Z) : Js.toInt32 z mod 2 ^ 32 = z mod 2 ^ 32.
Proof.
  unfold Js.toInt32. rewrite Zminus_mod_idemp_l.
  f_equal. lia.
Qed.

Lemma toInt32_testbit (z k : Z) :
  0 <= k < 32 -> Z.testbit (Js.toInt32 z) k = Z.testbit z k.
Proof.
  intros Hk.
  rewrite <- (Z.mod_pow2_bits_low (Js.toInt32 z) 32 k) by lia.
  rewrite toInt32_mod. apply Z.mod_pow2_bits_low. lia.
Qed.

Lemma land_1_testbit (y : Z) : Z.land y 1 = if Z.testbit y 0 then 1 else 0.
Proof.
  change 1 with (Z.ones 1) at 1. rewrite Z.land_ones by lia.
  change (2 ^ 1) with 2. rewrite <- Z.bit0_mod.
  now destruct (Z.testbit y 0).
Qed.

Lemma land_2_testbit (y : Z) : Z.land y 2 = if Z.testbit y 1 then 2 else 0.
Proof.
  assert (Hb : Z.testbit (Z.land y 2) 1 = Z.testbit y 1).
  { rewrite Z.land_spec. change (Z.testbit 2 1) with true. apply andb_true_r. }
  destruct (land_2_cases y) as [H|H]; rewrite H in *; now rewrite <- Hb.
Qed.

(** The bit handed over by the nearer hop is its [TrustPrevious] bit. *)
Lemma inherited_bit_testbit (flag : Z) :
  Js.ushr (Js.band flag TrustPrevious) 1
  = if Z.testbit flag 1 then 1 else 0.
Proof.
  unfold Js.ushr, Js.band. change (Js.toInt32 TrustPrevious) with 2.
  rewrite land_2_testbit, toInt32_testbit by lia.
  now destruct (Z.testbit flag 1).
Qed.

Lemma next_flag_bit0 trustChecker item st :
  Z.testbit (next_flag trustChecker item st) 0
  = Z.testbit (trustChecker item (index st + 1)) 0
    || Z.testbit (trustedFlag st) 1.
Proof.
  unfold next_flag, Js.bor. rewrite inherited_bit_testbit, Z.lor_spec.
  rewrite toInt32_testbit by lia. now destruct (Z.testbit (trustedFlag st) 1).
Qed.

Lemma next_flag_bit1 trustChecker item st :
  Z.testbit (next_flag trustChecker item st) 1
  = Z.testbit (trustChecker item (index st + 1)) 1.
Proof.
  unfold next_flag, Js.bor. rewrite inherited_bit_testbit, Z.lor_spec.
  rewrite toInt32_testbit by lia.
  destruct (Z.testbit (trustedFlag st) 1); apply orb_false_r.
Qed.

Lemma untrusted_bits trustChecker item st :
  untrusted trustChecker item st
  = negb (Z.testbit (trustChecker item (index st + 1)) 0
          || Z.testbit (trustedFlag st) 1).
Proof.
  unfold untrusted, Js.truthy_num, Js.band.
  change (Js.toInt32 TrustCurrent) with 1.
  rewrite land_1_testbit, toInt32_testbit, next_flag_bit0 by lia.
  now destruct (_ || _).
Qed.

(** Evaluates the lookups [p.k?.v] in parameter maps that are known. *)
Ltac eval_params :=
  repeat match goal with
         | |- context [param_v ?m ?k] =>
             let r := eval vm_compute in (param_v m k) in
             change (param_v m k) with r
         end;
  cbn [Js.or_else Js.truthy_str].

(** *** The scenarios *)

(** C1: for the single hop [for=203.0.113.5] with the parameters [host]
    and [proto], as the constructor builds it, and a policy that gives it
    the full mask at distance 1, the report is exactly [by] 10.0.0.1 (the
    default), [for] 203.0.113.5, [host] api.example.com and [proto] https. *)
Theorem by_single_hop_report (trust : HttpForwardTrust)
  (Hfull : trust_checker trust Scenario.hop 1 = Z.lor TrustCurrent TrustPrevious) :
  HttpForwardRep_by [Scenario.hop] Scenario.defaults trust
  = <["proto" := "https"]>
      (<["host" := "api.example.com"]>
         (<["for" := "203.0.113.5"]> (<["by" := "10.0.0.1"]> ∅))).
Proof.
  unfold HttpForwardRep_by, HttpForwardTrust_by. cbn [rev app walk].
  rewrite untrusted_3 by (apply next_flag_full; exact Hfull).
  vm_compute. reflexivity.
Qed.

Lemma by_single_hop_report_witness :
  trust_checker Scenario.trust_first Scenario.hop 1
  = Z.lor TrustCurrent TrustPrevious
  /\ HttpForwardRep_by [Scenario.hop] Scenario.defaults Scenario.trust_first
     = <["proto" := "https"]>
         (<["host" := "api.example.com"]>
            (<["for" := "203.0.113.5"]> (<["by" := "10.0.0.1"]> ∅))).
Proof.
  split; [reflexivity|].
  apply (by_single_hop_report Scenario.trust_first). reflexivity.
Defined.

(** C2: with no [Forwarded] header, the fallback not disabled,
    [X-Forwarded-For: 198.51.100.9] and [X-Forwarded-Proto: https], and a
    policy that gives the resulting hop the [TrustCurrent] bit, the report
    has [for] 198.51.100.9 and [proto] https, and the [by] and [host] of the
    defaults, whatever the defaults are; it has no other field. *)
Theorem parse_legacy_report (hthvParse : string -> list HthvItem)
  (defaults : Defaults) (trust : HttpForwardTrust)
  (Hfallback : xForwarded trust <> Some false)
  (Htrusted : Z.testbit (trust_checker trust Scenario.legacy_item 1) 0 = true) :
  let report :=
    HttpForwardRep_parse hthvParse parse_list parse_first Scenario.legacy
      defaults trust in
  report !! "for" = Some "198.51.100.9"
  /\ report !! "proto" = Some "https"
  /\ report !! "by" = Some (def_by defaults)
  /\ report !! "host" = Some (def_host defaults)
  /\ report
     = <["proto" := "https"]>
         (<["host" := def_host defaults]>
            (<["for" := "198.51.100.9"]>
               (<["by" := def_by defaults]> ∅))).
Proof.
  intros report.
  assert (Hitems : hthvXForwardedItems parse_list parse_first Scenario.legacy
                   = [Scenario.legacy_item]) by reflexivity.
  assert (H : report
    = <["proto" := "https"]>
         (<["host" := def_host defaults]>
            (<["for" := "198.51.100.9"]>
               (<["by" := def_by defaults]> ∅)))).
  { unfold report, HttpForwardRep_parse.
    cbn [Scenario.legacy forwarded truthy_header].
    case_decide; [contradiction|]. rewrite Hitems.
    unfold HttpForwardRep_by, HttpForwardTrust_by. cbn [rev app walk].
    rewrite untrusted_bits. cbn [walk_init index].
    change (0 + 1) with 1. rewrite Htrusted. cbn [orb negb].
    unfold report_of. cbn.
    apply map_eq. intros k. unfold Js.set_prop.
    repeat (case_decide; [discriminate|]).
    eval_params.
    rewrite !lookup_insert, !lookup_empty. repeat case_decide; congruence. }
  rewrite H. repeat split; reflexivity.
Qed.

Lemma parse_legacy_report_witness :
  xForwarded Scenario.trust_first <> Some false
  /\ Z.testbit (trust_checker Scenario.trust_first Scenario.legacy_item 1) 0
     = true
  /\ HttpForwardRep_parse (fun _ => []) parse_list parse_first Scenario.legacy
       Scenario.defaults Scenario.trust_first !! "for"
     = Some "198.51.100.9".
Proof.
  split; [discriminate|]. split; [reflexivity|].
  apply (parse_legacy_report (fun _ => []) Scenario.defaults
           Scenario.trust_first); [discriminate|reflexivity].
Defined.

(** *** The report *)

Lemma report_of_by st : report_of st !! "by" = Some (trustedBy st).
Proof.
  unfold report_of. do 3 (rewrite lookup_insert_ne by discriminate).
  apply lookup_insert_eq.
Qed.

Lemma report_of_for st : report_of st !! "for" = Some (trustedFor st).
Proof.
  unfold report_of. do 2 (rewrite lookup_insert_ne by discriminate).
  apply lookup_insert_eq.
Qed.

Lemma report_of_host st : report_of st !! "host" = Some (trustedHost st).
Proof.
  unfold report_of. do 1 (rewrite lookup_insert_ne by discriminate).
  apply lookup_insert_eq.
Qed.

Lemma report_of_proto st : report_of st !! "proto" = Some (trustedProto st).
Proof. unfold report_of. now rewrite lookup_insert_eq. Qed.

Lemma report_of_other st k :
  k <> "by" -> k <> "for" -> k <> "host" -> k <> "proto" ->
  report_of st !! k = flatten (trusted st) !! k.
Proof.
  intros. unfold report_of. now rewrite !lookup_insert_ne by congruence.
Qed.

Lemma report_of_same_fields st1 st2 :
  same_fields st1 st2 -> report_of st1 = report_of st2.
Proof.
  intros (Hb & Hf & Hh & Hp & Ht). unfold report_of.
  now rewrite Hb, Hf, Hh, Hp, Ht.
Qed.

Lemma stop_at_same_fields trustChecker item st :
  same_fields (stop_at trustChecker item st) st.
Proof. repeat split. Qed.

(** *** Truncation *)

(** The loop over a list and over a prefix of it that holds all the
    accepted items end with the same report. *)
Lemma walk_prefix trustChecker (l1 : list HthvItem) : forall l2 st,
  (trusted_hops trustChecker (l1 ++ l2)%list st <= length l1)%nat ->
  report_of (walk trustChecker (l1 ++ l2)%list st)
  = report_of (walk trustChecker l1 st).
Proof.
  induction l1 as [|a l1 IH]; intros l2 st Hk.
  - cbn [app] in *. destruct l2 as [|b l2]; [reflexivity|].
    cbn [walk trusted_hops length] in *.
    destruct (untrusted trustChecker b st); [|lia].
    apply report_of_same_fields, stop_at_same_fields.
  - cbn [app walk trusted_hops length] in *.
    destruct (untrusted trustChecker a st); [reflexivity|].
    apply IH. lia.
Qed.

(** When the loop accepts all of [l1], it goes on with [l2] from the state
    it has then. *)
Lemma walk_accepted trustChecker (l1 : list HthvItem) : forall l2 st,
  trusted_hops trustChecker l1 st = length l1 ->
  walk trustChecker (l1 ++ l2)%list st
  = walk trustChecker l2 (walk trustChecker l1 st)
  /\ trusted_hops trustChecker (l1 ++ l2)%list st
     = (length l1 + trusted_hops trustChecker l2 (walk trustChecker l1 st))%nat.
Proof.
  induction l1 as [|a l1 IH]; intros l2 st Hall; [split; reflexivity|].
  cbn [app walk trusted_hops length] in *.
  destruct (untrusted trustChecker a st); [discriminate|].
  injection Hall as Hall. destruct (IH l2 _ Hall) as [Hw Hk].
  split; [exact Hw|]. now rewrite Hk.
Qed.

(** The break point: when the loop accepts the items [near] and the item
    [b] in front of them is not trusted, the report is the one of [near]
    alone, whatever lies in front of [b], and with or without [b]. *)
Lemma by_break_point (far near : list HthvItem) (b : HthvItem)
  (defaults : Defaults) (trust : HttpForwardTrust) :
  let trustChecker := HttpForwardTrust_by trust in
  let st := walk_init trustChecker defaults in
  trusted_hops trustChecker (rev near) st = length near ->
  untrusted trustChecker b (walk trustChecker (rev near) st) = true ->
  HttpForwardRep_by (far ++ b :: near)%list defaults trust
  = HttpForwardRep_by near defaults trust
  /\ HttpForwardRep_by (b :: near) defaults trust
     = HttpForwardRep_by near defaults trust.
Proof.
  intros trustChecker st Hall Hb.
  rewrite <- (length_rev near) in Hall.
  assert (Hcut : forall l, report_of (walk trustChecker (rev near ++ b :: l)%list st)
                           = report_of (walk trustChecker (rev near) st)).
  { intros l. apply walk_prefix.
    destruct (walk_accepted trustChecker (rev near) (b :: l) st Hall) as [_ ->].
    cbn [trusted_hops]. rewrite Hb. lia. }
  unfold HttpForwardRep_by. fold trustChecker. fold st. split.
  - rewrite rev_app_distr. cbn [rev]. rewrite <- !app_assoc. cbn [app].
    apply Hcut.
  - cbn [rev]. apply Hcut.
Qed.

(** C6: the report depends only on the hops processed before the loop
    stops. If [near] keeps at least the items that the loop accepts, then
    dropping the items [far] in front of it, the most distant ones, which
    lie beyond the first untrusted item, gives the same report. *)
Theorem by_truncation (far near : list HthvItem) (defaults : Defaults)
  (trust : HttpForwardTrust)
  (Hstop : (trusted_hops (HttpForwardTrust_by trust)
              (rev (far ++ near)%list)
              (walk_init (HttpForwardTrust_by trust) defaults)
            <= length near)%nat) :
  HttpForwardRep_by near defaults trust
  = HttpForwardRep_by (far ++ near)%list defaults trust.
Proof.
  unfold HttpForwardRep_by in *. rewrite rev_app_distr in *.
  symmetry. apply walk_prefix. now rewrite length_rev.
Qed.

Lemma by_truncation_witness :
  (trusted_hops (HttpForwardTrust_by Scenario.trust_first)
     (rev ([Scenario.hopA] ++ [Scenario.hop; Scenario.hop])%list)
     (walk_init (HttpForwardTrust_by Scenario.trust_first) Scenario.defaults)
   <= length [Scenario.hop; Scenario.hop])%nat
  /\ HttpForwardRep_by [Scenario.hop; Scenario.hop] Scenario.defaults
       Scenario.trust_first
     = HttpForwardRep_by [Scenario.hopA; Scenario.hop; Scenario.hop]
         Scenario.defaults Scenario.trust_first.
Proof.
  split; [vm_compute; lia|].
  apply (by_truncation [Scenario.hopA] [Scenario.hop; Scenario.hop]).
  vm_compute. lia.
Defined.

(** *** The record of the defaults and the policy *)

(** Two policies that agree from distance 1 on, started in states that
    differ at most in the mask, and there at most outside the
    [TrustPrevious] bit, end with the same report. *)
Lemma walk_previous_bit_only (c1 c2 : Checker) (rest : list HthvItem) :
  (forall item k, 1 <= k -> c1 item k = c2 item k) ->
  forall st1 st2,
    same_fields st1 st2 ->
    index st1 = index st2 ->
    0 <= index st1 ->
    Js.band (trustedFlag st1) TrustPrevious
    = Js.band (trustedFlag st2) TrustPrevious ->
    report_of (walk c1 rest st1) = report_of (walk c2 rest st2).
Proof.
  intros Hagree. induction rest as [|item rest IH];
    intros st1 st2 Hsame Hidx Hpos Hbit.
  - now apply report_of_same_fields.
  - assert (Hflag : next_flag c1 item st1 = next_flag c2 item st2).
    { unfold next_flag. rewrite Hbit, <- Hidx. f_equal. apply Hagree. lia. }
    cbn [walk]. unfold untrusted. rewrite Hflag.
    destruct (negb _).
    + apply report_of_same_fields.
      destruct Hsame as (Hb & Hf & Hh & Hp & Ht). repeat split; assumption.
    + apply IH.
      * destruct Hsame as (Hb & Hf & Hh & Hp & Ht).
        unfold accept. repeat split; cbn; congruence.
      * cbn. lia.
      * cbn. lia.
      * cbn. now rewrite Hflag.
Qed.

(** C3, as the code has it: the policy is asked for the mask of the record
    of the defaults, at distance 0, and of its answer the [TrustPrevious]
    bit alone matters. Two policies that agree from distance 1 on and give
    the record of the defaults masks with the same [TrustPrevious] bit
    produce the same report; the [TrustCurrent] bit of that mask is never
    read, the fields of the defaults are used in any case. *)
Theorem by_distance_0_previous_bit_only (items : list HthvItem)
  (defaults : Defaults) (trust1 trust2 : HttpForwardTrust)
  (Hagree : forall item k, 1 <= k ->
              trust_checker trust1 item k = trust_checker trust2 item k)
  (Hbit : Js.band (trust_checker trust1 (last_item defaults) 0) TrustPrevious
          = Js.band (trust_checker trust2 (last_item defaults) 0) TrustPrevious) :
  trustedFlag (walk_init (HttpForwardTrust_by trust1) defaults)
  = trust_checker trust1 (last_item defaults) 0
  /\ HttpForwardRep_by items defaults trust1
     = HttpForwardRep_by items defaults trust2.
Proof.
  split; [reflexivity|].
  unfold HttpForwardRep_by, HttpForwardTrust_by.
  apply walk_previous_bit_only; try assumption.
  - repeat split.
  - reflexivity.
  - cbn. lia.
Qed.

Lemma by_distance_0_previous_bit_only_witness :
  (forall item k, 1 <= k ->
     trust_checker Scenario.trust_local item k
     = trust_checker Scenario.trust_previous item k)
  /\ Js.band (trust_checker Scenario.trust_local
               (last_item Scenario.defaults) 0) TrustPrevious
     = Js.band (trust_checker Scenario.trust_previous
                  (last_item Scenario.defaults) 0) TrustPrevious
  /\ HttpForwardRep_by [Scenario.hop] Scenario.defaults Scenario.trust_local
     = HttpForwardRep_by [Scenario.hop] Scenario.defaults
         Scenario.trust_previous.
Proof.
  assert (H : forall (item : HthvItem) k, 1 <= k ->
     trust_checker Scenario.trust_local item k
     = trust_checker Scenario.trust_previous item k).
  { intros item k Hk. cbn. destruct (Z.eqb_spec k 0); [lia|reflexivity]. }
  split; [exact H|]. split; [reflexivity|].
  apply (by_distance_0_previous_bit_only [Scenario.hop] Scenario.defaults
           Scenario.trust_local Scenario.trust_previous H).
  reflexivity.
Defined.

(** C3, as stated, fails: two policies that differ at distance 0 only, one
    giving the record of the defaults the empty mask and the other the full
    one, produce different reports for the same hop; with the first one the
    mask of that record is not the full mask. *)
Lemma by_depends_on_distance_0 :
  (forall item k, 1 <= k ->
     trust_checker Scenario.trust_none item k
     = trust_checker Scenario.trust_local item k)
  /\ trustedFlag (walk_init (HttpForwardTrust_by Scenario.trust_none)
                   Scenario.defaults)
     <> Z.lor TrustCurrent TrustPrevious
  /\ HttpForwardRep_by [Scenario.hop] Scenario.defaults Scenario.trust_none
     <> HttpForwardRep_by [Scenario.hop] Scenario.defaults Scenario.trust_local.
Proof.
  split; [|split].
  - intros item k Hk. cbn. destruct (Z.eqb_spec k 0); [lia|reflexivity].
  - vm_compute. discriminate.
  - intros H. apply (f_equal (fun r => r !! "host")) in H.
    vm_compute in H. discriminate.
Qed.

(** *** Two hops *)

Lemma or_else_some a b : a <> EmptyString -> Js.or_else (Some a) b = a.
Proof. destruct a; [congruence|reflexivity]. Qed.

Lemma or_else_absent o b :
  o = None \/ o = Some EmptyString -> Js.or_else o b = b.
Proof. intros [-> | ->]; reflexivity. Qed.

Lemma report_of_field st f :
  report_of st !! field_name f
  = Some (match f with
          | FBy => trustedBy st
          | FFor => trustedFor st
          | FHost => trustedHost st
          | FProto => trustedProto st
          end).
Proof.
  destruct f; cbn [field_name];
    auto using report_of_by, report_of_for, report_of_host, report_of_proto.
Qed.

(** An item that the constructor builds with a non-empty name has its own
    value under that name in its index. *)
Lemma hthvItem_own_param (part : HthvPartial) (n : string) :
  part_n part = Some n -> n <> EmptyString ->
  Item.n (hthvItem part) = Some n
  /\ Item.v (hthvItem part) = part_v part
  /\ param_v (Item.p (hthvItem part)) n = Some (part_v part).
Proof.
  intros Hn Hne. unfold hthvItem.
  destruct (part_p part), (part_pl part); rewrite Hn;
    (destruct n as [|c n]; [congruence|]); cbn [Js.truthy_str];
    unfold param_v; cbn [Item.n Item.v Item.p];
    now rewrite lookup_insert_eq.
Qed.

(** C5: for the items [hopA; hopB], with a policy that gives [hopB]
    (distance 1) the full mask and [hopA] (distance 2) nothing, the mask of
    [hopA] is [TrustCurrent], handed over by the [TrustPrevious] bit of
    [hopB]; both hops are accepted and the report is built from [hopA], the
    last one processed. The fields other than the four required ones are
    those of [hopA], not of [hopB]; a required field has the value of [hopA]
    wherever [hopA] has a non-empty one, be it a parameter or, for an item
    of the constructor, its own name and value; only a required field that
    [hopA] does not have keeps the running value, the one of [hopB] or the
    default. *)
Theorem by_two_hops_propagated (hopA hopB : HthvItem) (defaults : Defaults)
  (trust : HttpForwardTrust)
  (HhopB : trust_checker trust hopB 1 = Z.lor TrustCurrent TrustPrevious)
  (HhopA : trust_checker trust hopA 2 = 0) :
  let trustChecker := HttpForwardTrust_by trust in
  let near := accept trustChecker hopB (walk_init trustChecker defaults) in
  let report := HttpForwardRep_by [hopA; hopB] defaults trust in
  next_flag trustChecker hopA near = TrustCurrent
  /\ walk trustChecker (rev [hopA; hopB]) (walk_init trustChecker defaults)
     = accept trustChecker hopA near
  /\ (forall k, k <> "by" -> k <> "for" -> k <> "host" -> k <> "proto" ->
        report !! k = flatten hopA !! k)
  /\ (forall f a, param_v (Item.p hopA) (field_name f) = Some a ->
        a <> EmptyString -> report !! field_name f = Some a)
  /\ (forall f part,
        hopA = hthvItem part ->
        part_n part = Some (field_name f) ->
        part_v part <> EmptyString ->
        report !! field_name f = Some (part_v part))
  /\ (forall f,
        param_v (Item.p hopA) (field_name f) = None
        \/ param_v (Item.p hopA) (field_name f) = Some EmptyString ->
        report !! field_name f
        = Some (Js.or_else (param_v (Item.p hopB) (field_name f))
                           (def_field defaults f))).
Proof.
  intros trustChecker near report.
  assert (Hnear : trustedFlag near = 3).
  { apply next_flag_full. exact HhopB. }
  assert (Hflag : next_flag trustChecker hopA near = TrustCurrent).
  { apply next_flag_inherited; [exact HhopA|exact Hnear]. }
  assert (Hwalk : walk trustChecker (rev [hopA; hopB])
                    (walk_init trustChecker defaults)
                  = accept trustChecker hopA near).
  { cbn [rev app walk].
    rewrite untrusted_3 by (apply next_flag_full; exact HhopB).
    fold near. now rewrite untrusted_1 by exact Hflag. }
  assert (Hrep : report = report_of (accept trustChecker hopA near)).
  { unfold report, HttpForwardRep_by. fold trustChecker. now rewrite Hwalk. }
  assert (Hparam : forall f a,
             param_v (Item.p hopA) (field_name f) = Some a ->
             a <> EmptyString -> report !! field_name f = Some a).
  { intros f a Ha Hne. rewrite Hrep, report_of_field.
    destruct f; cbn [field_name] in Ha; cbn; rewrite Ha;
      now rewrite or_else_some. }
  split; [exact Hflag|]. split; [exact Hwalk|]. split; [|split; [|split]].
  - intros k ? ? ? ?. now rewrite Hrep, report_of_other.
  - exact Hparam.
  - intros f part -> Hn Hv. apply Hparam; [|exact Hv].
    apply hthvItem_own_param; [exact Hn|now destruct f].
  - intros f Habsent. rewrite Hrep, report_of_field.
    destruct f; cbn [field_name] in Habsent; cbn;
      now rewrite (or_else_absent _ _ Habsent).
Qed.

Lemma by_two_hops_propagated_witness :
  trust_checker Scenario.trust_first Scenario.hopB 1
  = Z.lor TrustCurrent TrustPrevious
  /\ trust_checker Scenario.trust_first Scenario.hopA 2 = 0
  /\ HttpForwardRep_by [Scenario.hopA; Scenario.hopB] Scenario.defaults
       Scenario.trust_first !! field_name FFor
     = Some "198.51.100.7"
  /\ HttpForwardRep_by [Scenario.hopA; Scenario.hopB] Scenario.defaults
       Scenario.trust_first !! field_name FBy
     = Some "192.0.2.1".
Proof.
  split; [reflexivity|]. split; [reflexivity|].
  destruct (by_two_hops_propagated Scenario.hopA Scenario.hopB
              Scenario.defaults Scenario.trust_first)
    as (_ & _ & _ & Hparam & _); [reflexivity|reflexivity|].
  split; [apply (Hparam FFor)|apply (Hparam FBy)];
    first [reflexivity|discriminate].
Defined.

(** *** The items built by the code *)

Lemma param_item_invariant (n v : string) :
  index_invariant_own (hthvItem (partial_nv n v)).
Proof.
  destruct n as [|c n]; [reflexivity|].
  unfold index_invariant_own. cbn. split.
  - now rewrite delete_insert_eq.
  - unfold param_v. now rewrite lookup_insert_eq.
Qed.

Lemma x_forwarded_item_invariant (host proto : option string) (v : string) :
  let item :=
    x_forwarded_item
      ((fun h => hthvItem (partial_nv "host" h)) <$> host)
      ((fun h => hthvItem (partial_nv "proto" h)) <$> proto) v in
  index_invariant_own item /\ Forall index_invariant_own (Item.pl item).
Proof.
  destruct host, proto; cbn; (split; [split; reflexivity|]);
    repeat constructor; apply (param_item_invariant "host")
                        || apply (param_item_invariant "proto").
Qed.

(** C9, as the code has it: the index of an item that the code builds is
    the fold of its parameter list from the left, keyed by parameter name,
    apart from one entry: the item is also found under its own name, with
    its own value, which the list does not have. This holds for the record
    of the defaults that [HttpForwardRep_by] starts from and for its
    parameters, and for every item of [hthvXForwardedItems] and its
    parameters, whatever the trivial parsers return. *)
Theorem built_items_index_own_name :
  (forall (trustChecker : Checker) (defaults : Defaults),
     let item := trusted (walk_init trustChecker defaults) in
     item = last_item defaults
     /\ index_invariant_own item
     /\ Forall index_invariant_own (Item.pl item))
  /\ (forall (hthvParseTrivial : HeaderValue -> list string)
        (hthvParseFirstTrivial : option HeaderValue -> option string)
        (headers : Headers),
        Forall (fun item =>
                  index_invariant_own item
                  /\ Forall index_invariant_own (Item.pl item))
               (hthvXForwardedItems hthvParseTrivial hthvParseFirstTrivial
                  headers)).
Proof.
  split.
  - intros trustChecker defaults. cbn. split; [reflexivity|].
    split; [split; reflexivity|].
    repeat constructor; apply (param_item_invariant "host")
                        || apply (param_item_invariant "proto").
  - intros parseTrivial parseFirst headers. unfold hthvXForwardedItems.
    destruct (x_forwarded_for headers) as [value|]; [|constructor].
    destruct (truthy_header (Some value)); [|constructor].
    apply List.Forall_map, Forall_forall. intros v _.
    destruct (parseFirst (x_forwarded_host headers)) as [h|];
      destruct (parseFirst (x_forwarded_proto headers)) as [q|];
      try destruct (Js.truthy_str h); try destruct (Js.truthy_str q).
    all: first
      [ apply (x_forwarded_item_invariant (Some h) (Some q))
      | apply (x_forwarded_item_invariant (Some h) None)
      | apply (x_forwarded_item_invariant None (Some q))
      | apply (x_forwarded_item_invariant None None) ].
Qed.

(** C9, as stated, fails: the index of the record of the defaults has the
    entry [for], the own name of the record, and its parameter list, [host]
    and [proto], has no parameter of that name; the same holds for the item
    built from [X-Forwarded-For]. *)
Lemma built_item_index_not_fold :
  ~ index_invariant (last_item Scenario.defaults)
  /\ ~ index_invariant Scenario.legacy_item
  /\ param_v (Item.p (last_item Scenario.defaults)) "for" = Some "10.0.0.2"
  /\ param_v (index_of_list (Item.pl (last_item Scenario.defaults))) "for"
     = None.
Proof.
  split; [|split; [|split; reflexivity]];
    unfold index_invariant; intros H;
    apply (f_equal (fun idx => param_v idx "for")) in H;
    vm_compute in H; discriminate.
Qed.

(** *** The dispatcher *)

(** C10: a [Forwarded] header that is the empty string is handled as an
    absent one. Whatever the other headers are, the report is the copy of
    the defaults when [xForwarded] is [false], and else the one built from
    the items of the legacy headers; it does not depend on the parser of
    [Forwarded] values, which is not called. *)
Theorem parse_empty_forwarded
  (hthvParse hthvParse' : string -> list HthvItem)
  (hthvParseTrivial : HeaderValue -> list string)
  (hthvParseFirstTrivial : option HeaderValue -> option string)
  (xff xfh xfp : option HeaderValue)
  (defaults : Defaults) (trust : HttpForwardTrust) :
  let present := MkHeaders (Some (Single EmptyString)) xff xfh xfp in
  let absent := MkHeaders None xff xfh xfp in
  HttpForwardRep_parse hthvParse hthvParseTrivial hthvParseFirstTrivial
    present defaults trust
  = HttpForwardRep_parse hthvParse' hthvParseTrivial hthvParseFirstTrivial
      absent defaults trust
  /\ HttpForwardRep_parse hthvParse hthvParseTrivial hthvParseFirstTrivial
       present defaults trust
     = if decide (xForwarded trust = Some false)
       then spread_defaults defaults
       else HttpForwardRep_by
              (hthvXForwardedItems hthvParseTrivial hthvParseFirstTrivial
                 absent)
              defaults trust.
Proof. split; reflexivity. Qed.

(** * Further properties *)

(** ** The quoter *)

Section QuoteMore.

Variable delimiters : ascii -> bool.

(** X1: the result of [hthvQuote] is never the empty string, whatever the
    input and the delimiter table are. *)
Theorem hthvQuote_never_empty (s : string) :
  hthvQuote delimiters s <> EmptyString
  /\ (1 <= String.length (hthvQuote delimiters s))%nat.
Proof.
  assert (H : hthvQuote delimiters s <> EmptyString).
  { destruct s as [|c s]; [discriminate|]. rewrite hthvQuote_cases.
    destruct (str_existsb _ _); discriminate. }
  split; [exact H|].
  destruct (hthvQuote delimiters s); [congruence|cbn; lia].
Qed.

(** X2: a string that has a character forcing quotes, and none that is
    escaped, is returned between two double quotes with no other change. *)
Theorem hthvQuote_wraps_verbatim (s : string)
  (Hquote : str_existsb (needs_quote delimiters) s = true)
  (Hplain : str_existsb (escaped_char delimiters) s = false) :
  hthvQuote delimiters s = String dquote (s +:+ String dquote EmptyString).
Proof.
  destruct s as [|c s]; [discriminate|].
  rewrite hthvQuote_cases, Hquote.
  now rewrite (first_escape_none delimiters EmptyString _ Hplain).
Qed.

End QuoteMore.

Lemma hthvQuote_wraps_verbatim_witness :
  str_existsb (needs_quote sample_delimiters) "text/html; q=1" = true
  /\ str_existsb (escaped_char sample_delimiters) "text/html; q=1" = false
  /\ hthvQuote sample_delimiters "text/html; q=1"
     = String dquote ("text/html; q=1" +:+ String dquote EmptyString).
Proof.
  split; [reflexivity|]. split; [reflexivity|].
  apply (hthvQuote_wraps_verbatim sample_delimiters); reflexivity.
Defined.

Section QuoteEscapes.

Variable delimiters : ascii -> bool.

(** The table has the two characters that the loop escapes. *)
Hypothesis delimiters_dquote : delimiters dquote = true.
Hypothesis delimiters_bslash : delimiters bslash = true.

Lemma needs_escape_quotes c :
  needs_escape c = true -> needs_quote delimiters c = true.
Proof.
  unfold needs_escape, needs_quote. intros H.
  apply orb_true_iff in H as [H|H]; apply Ascii.eqb_eq in H as ->;
    rewrite ?delimiters_dquote, ?delimiters_bslash;
    now rewrite ?orb_true_r, ?orb_true_l.
Qed.

Lemma escaped_char_escape c : escaped_char delimiters c = needs_escape c.
Proof.
  unfold escaped_char. destruct (needs_escape c) eqn:H.
  - now rewrite needs_escape_quotes.
  - apply andb_false_r.
Qed.

Lemma escape_all_app s t : escape_all (s +:+ t) = escape_all s +:+ escape_all t.
Proof.
  induction s as [|c s IH]; [reflexivity|].
  rewrite str_app_cons. cbn [escape_all]. rewrite IH.
  now destruct (_ || _).
Qed.

Lemma escape_all_plain s :
  str_existsb needs_escape s = false -> escape_all s = s.
Proof.
  induction s as [|c s IH]; [reflexivity|]. cbn [str_existsb escape_all].
  intros H. apply orb_false_iff in H as [Hc Hs].
  unfold needs_escape in Hc. rewrite Hc. now rewrite IH.
Qed.

(** Where no character is dropped, the buffer grows by the escaped text. *)
Lemma buffered_escape_all t :
  str_existsb (quoting_only delimiters) t = false ->
  buffered delimiters t = escape_all t.
Proof.
  induction t as [|c t IH]; [reflexivity|]. cbn [str_existsb buffered escape_all].
  intros H. apply orb_false_iff in H as [Hc Ht]. rewrite (IH Ht).
  unfold quoting_only in Hc. fold (needs_escape c).
  destruct (needs_escape c) eqn:He.
  - now rewrite needs_escape_quotes.
  - rewrite andb_true_r in Hc. now rewrite Hc.
Qed.

Lemma first_escape_skip pre : forall q rest,
  str_existsb needs_escape pre = false ->
  first_escape delimiters q (pre +:+ rest)
  = first_escape delimiters (q +:+ pre) rest.
Proof.
  induction pre as [|c pre IH]; intros q rest H.
  - now rewrite str_app_nil_l, str_app_nil_r.
  - cbn [str_existsb] in H. apply orb_false_iff in H as [Hc Hpre].
    rewrite str_app_cons. cbn [first_escape]. rewrite Hc, andb_false_r.
    rewrite IH by assumption. now rewrite str_app_assoc.
Qed.

Lemma first_escape_escape_all t : forall q,
  str_existsb (quoting_only delimiters) t = false ->
  match first_escape delimiters q t with
  | Some e => e
  | None => q +:+ t
  end = q +:+ escape_all t.
Proof.
  induction t as [|c t IH]; intros q H; [reflexivity|].
  cbn [str_existsb] in H. apply orb_false_iff in H as [Hc Ht].
  cbn [first_escape escape_all]. fold (escaped_char delimiters c).
  fold (needs_escape c). rewrite escaped_char_escape.
  destruct (needs_escape c) eqn:He.
  - now rewrite buffered_escape_all.
  - specialize (IH (q +:+ String c EmptyString) Ht).
    destruct (first_escape delimiters (q +:+ String c EmptyString) t);
      rewrite !str_app_assoc in IH; exact IH.
Qed.

(** X3: with a table that has the backslash and the double quote, a string
    with a character forcing quotes comes back in its quoted form (one pair
    of double quotes, a backslash before every backslash and double quote)
    as long as no character that forces quotes without being escaped comes
    after the first escaped one: [pre] is free of backslashes and double
    quotes, [tail] of such characters. *)
Theorem hthvQuote_quoted_form (pre tail : string)
  (Hquote : str_existsb (needs_quote delimiters) (pre +:+ tail) = true)
  (Hpre : str_existsb needs_escape pre = false)
  (Htail : str_existsb (quoting_only delimiters) tail = false) :
  hthvQuote delimiters (pre +:+ tail) = quoted_form (pre +:+ tail).
Proof.
  destruct (pre +:+ tail) as [|c s] eqn:Hs; [discriminate|].
  rewrite hthvQuote_cases, Hquote, <- Hs. unfold quoted_form. f_equal. f_equal.
  rewrite first_escape_skip, str_app_nil_l by assumption.
  rewrite escape_all_app, (escape_all_plain pre Hpre).
  pose proof (first_escape_escape_all tail pre Htail) as H.
  destruct (first_escape delimiters pre tail); exact H.
Qed.

Lemma well_escaped_plain_app pre s :
  str_existsb needs_escape pre = false ->
  well_escaped (pre +:+ s) = well_escaped s.
Proof.
  induction pre as [|c pre IH]; [reflexivity|]. cbn [str_existsb].
  intros H. apply orb_false_iff in H as [Hc Hpre]. rewrite str_app_cons.
  unfold needs_escape in Hc. apply orb_false_iff in Hc as [Hb Hd].
  cbn [well_escaped]. rewrite Hb, Hd. now apply IH.
Qed.

Lemma well_escaped_buffered t : well_escaped (buffered delimiters t) = true.
Proof.
  induction t as [|c t IH]; [reflexivity|]. cbn [buffered].
  destruct (needs_quote delimiters c) eqn:Hq.
  - destruct (needs_escape c); [|now rewrite str_app_nil_l].
    rewrite !str_app_cons, str_app_nil_l. exact IH.
  - destruct (needs_escape c) eqn:He.
    + apply needs_escape_quotes in He. congruence.
    + rewrite (well_escaped_plain_app (String c EmptyString)); [exact IH|].
      cbn [str_existsb]. now rewrite He.
Qed.

Lemma first_escape_none_inv rest : forall pre,
  first_escape delimiters pre rest = None ->
  str_existsb (escaped_char delimiters) rest = false.
Proof.
  induction rest as [|c rest IH]; intros pre H; [reflexivity|].
  cbn [first_escape] in H. fold (escaped_char delimiters c) in H.
  cbn [str_existsb]. destruct (escaped_char delimiters c); [discriminate|].
  exact (IH _ H).
Qed.

Lemma str_existsb_ext f g s :
  (forall c, f c = g c) -> str_existsb f s = str_existsb g s.
Proof.
  intros H. induction s as [|c s IH]; [reflexivity|].
  cbn [str_existsb]. now rewrite H, IH.
Qed.

(** X4: with a table that has the backslash and the double quote, the
    result is a token or a well-formed quoted string. Either it is the input,
    and then the input has no backslash and no double quote; or it is a text
    between two double quotes in which every backslash starts a pair and no
    double quote stands alone, so that the text cannot end the quoted string
    early. *)
Theorem hthvQuote_well_formed (s : string) :
  (hthvQuote delimiters s = s /\ str_existsb needs_escape s = false)
  \/ exists inner,
       hthvQuote delimiters s
       = String dquote (inner +:+ String dquote EmptyString)
       /\ well_escaped inner = true.
Proof.
  destruct s as [|c s]; [right; now exists EmptyString|].
  rewrite hthvQuote_cases.
  destruct (str_existsb (needs_quote delimiters) (String c s)) eqn:Hq.
  - right.
    destruct (first_escape delimiters EmptyString (String c s)) as [e|] eqn:He.
    + exists e. split; [reflexivity|].
      apply first_escape_some in He as (p & a & tail & _ & Hp & _ & ->).
      rewrite str_app_nil_l.
      rewrite (str_existsb_ext _ _ _ escaped_char_escape) in Hp.
      rewrite well_escaped_plain_app by assumption.
      rewrite !str_app_cons, str_app_nil_l. cbn [well_escaped].
      rewrite Ascii.eqb_refl. apply well_escaped_buffered.
    + exists (String c s). split; [reflexivity|].
      apply first_escape_none_inv in He.
      rewrite (str_existsb_ext _ _ _ escaped_char_escape) in He.
      rewrite <- (str_app_nil_r (String c s)).
      now rewrite well_escaped_plain_app.
  - left. split; [reflexivity|].
    destruct (str_existsb needs_escape (String c s)) eqn:He; [|reflexivity].
    exfalso. revert Hq He. generalize (String c s). intros t.
    induction t as [|a t IH]; [discriminate|]. cbn [str_existsb].
    intros Hq He. apply orb_false_iff in Hq as [Ha Ht].
    apply orb_true_iff in He as [He|He]; [|now apply IH].
    apply needs_escape_quotes in He. congruence.
Qed.

End QuoteEscapes.

(** Witnesses for the quoter, with the sample table. *)

Lemma hthvQuote_quoted_form_witness :
  sample_delimiters dquote = true
  /\ sample_delimiters bslash = true
  /\ hthvQuote sample_delimiters ("a b" +:+ String dquote "c\d")
     = quoted_form ("a b" +:+ String dquote "c\d").
Proof.
  split; [reflexivity|]. split; [reflexivity|].
  apply (hthvQuote_quoted_form sample_delimiters); reflexivity.
Defined.

Lemma hthvQuote_well_formed_witness :
  sample_delimiters dquote = true
  /\ sample_delimiters bslash = true
  /\ ((hthvQuote sample_delimiters "a b" = "a b"
       /\ str_existsb needs_escape "a b" = false)
      \/ exists inner,
           hthvQuote sample_delimiters "a b"
           = String dquote (inner +:+ String dquote EmptyString)
           /\ well_escaped inner = true).
Proof.
  split; [reflexivity|]. split; [reflexivity|].
  apply (hthvQuote_well_formed sample_delimiters); reflexivity.
Defined.

(** ** The masks, bit by bit *)

(** X5: the rule by which a hop is accepted, in terms of what the policy
    returns, for masks that are any integers. The hop is accepted exactly
    when the policy gives it the [TrustCurrent] bit or the mask of the nearer
    hop has the [TrustPrevious] bit; and the [TrustPrevious] bit of its own
    mask is the one the policy gives it, never an inherited one. *)
Theorem hop_acceptance_rule (trustChecker : Checker) (item : HthvItem)
  (st : Walk) :
  untrusted trustChecker item st
  = negb (Z.testbit (trustChecker item (index st + 1)) 0
          || Z.testbit (trustedFlag st) 1)
  /\ Z.testbit (next_flag trustChecker item st) 1
     = Z.testbit (trustChecker item (index st + 1)) 1.
Proof. split; [apply untrusted_bits|apply next_flag_bit1]. Qed.

(** X6: trust handed over by a nearer hop goes one hop far. When the policy
    gives the accepted item [a] no [TrustPrevious] bit, the next item [b] is
    accepted only if the policy itself gives it the [TrustCurrent] bit,
    whatever made [a] accepted. *)
Theorem inherited_trust_one_hop (trustChecker : Checker) (a b : HthvItem)
  (st : Walk)
  (Ha : Z.testbit (trustChecker a (index st + 1)) 1 = false) :
  untrusted trustChecker b (accept trustChecker a st)
  = negb (Z.testbit (trustChecker b (index st + 1 + 1)) 0).
Proof.
  rewrite untrusted_bits. cbn [accept trustedFlag index].
  now rewrite next_flag_bit1, Ha, orb_false_r.
Qed.

Lemma inherited_trust_one_hop_witness :
  let c := trust_checker Scenario.trust_local in
  let st := walk_init c Scenario.defaults in
  Z.testbit (c Scenario.hopB (index st + 1)) 1 = false
  /\ untrusted c Scenario.hopA (accept c Scenario.hopB st) = true.
Proof.
  split; [reflexivity|].
  rewrite (inherited_trust_one_hop (trust_checker Scenario.trust_local));
    reflexivity.
Defined.

(** ** The loop, as a fold over the accepted items *)

Lemma walk_field_accept trustChecker item st f :
  walk_field (accept trustChecker item st) f = carry f (walk_field st f) item.
Proof. destruct f; reflexivity. Qed.

Lemma walk_field_fold trustChecker (rest : list HthvItem) : forall st f,
  walk_field (walk trustChecker rest st) f
  = foldl (carry f) (walk_field st f)
      (take (trusted_hops trustChecker rest st) rest).
Proof.
  induction rest as [|a rest IH]; intros st f; [reflexivity|].
  cbn [walk trusted_hops].
  destruct (untrusted trustChecker a st); [now destruct f|].
  cbn [firstn foldl]. now rewrite IH, walk_field_accept.
Qed.

Lemma walk_trusted_last trustChecker (rest : list HthvItem) : forall st,
  trusted (walk trustChecker rest st)
  = default (trusted st)
      (last (take (trusted_hops trustChecker rest st) rest)).
Proof.
  induction rest as [|a rest IH]; intros st; [reflexivity|].
  cbn [walk trusted_hops].
  destruct (untrusted trustChecker a st); [reflexivity|].
  rewrite IH. cbn [firstn accept trusted].
  generalize (take (trusted_hops trustChecker rest (accept trustChecker a st))
                rest).
  intros l. rewrite last_cons. now destruct (last l).
Qed.

Lemma report_of_walk_field st f :
  report_of st !! field_name f = Some (walk_field st f).
Proof.
  destruct f; cbn [field_name walk_field];
    auto using report_of_by, report_of_for, report_of_host, report_of_proto.
Qed.

(** X7: the report in terms of the accepted hops. With [accepted] the
    items that the loop accepts, the nearest first, each required field is
    the default with the parameters of that name of the accepted items
    carried over it in turn, a non-empty value replacing what is there; and
    every other field is the one of the last accepted item, or of the record
    of the defaults when no item is accepted. *)
Theorem by_report_of_accepted (items : list HthvItem) (defaults : Defaults)
  (trust : HttpForwardTrust) :
  let trustChecker := HttpForwardTrust_by trust in
  let st := walk_init trustChecker defaults in
  let accepted := take (trusted_hops trustChecker (rev items) st) (rev items) in
  let report := HttpForwardRep_by items defaults trust in
  (forall f, report !! field_name f
             = Some (foldl (carry f) (def_field defaults f) accepted))
  /\ (forall k, k <> "by" -> k <> "for" -> k <> "host" -> k <> "proto" ->
        report !! k
        = flatten (default (last_item defaults) (last accepted)) !! k).
Proof.
  intros trustChecker st accepted report. split.
  - intros f. unfold report, HttpForwardRep_by. fold trustChecker st.
    rewrite report_of_walk_field, walk_field_fold. now destruct f.
  - intros k ? ? ? ?. unfold report, HttpForwardRep_by. fold trustChecker st.
    rewrite report_of_other by assumption. now rewrite walk_trusted_last.
Qed.

Lemma trusted_hops_all trustChecker (rest : list HthvItem) :
  (forall item k, Z.testbit (trustChecker item k) 0 = true) ->
  forall st, trusted_hops trustChecker rest st = length rest.
Proof.
  intros Hall. induction rest as [|a rest IH]; intros st; [reflexivity|].
  cbn [trusted_hops length]. rewrite untrusted_bits, Hall. cbn [orb negb].
  now rewrite IH.
Qed.

Lemma foldl_rev_foldr {A B} (g : B -> A -> B) (b : B) (l : list A) :
  foldl g b (rev l) = foldr (fun x acc => g acc x) b l.
Proof.
  induction l as [|x l IH]; [reflexivity|].
  cbn [rev foldr]. now rewrite foldl_app, IH.
Qed.

Lemma last_rev_head {A} (l : list A) : last (rev l) = head l.
Proof. destruct l as [|x l]; [reflexivity|]. cbn [rev]. apply last_snoc. Qed.

(** X8: with a policy that gives every hop the [TrustCurrent] bit, all the
    items are accepted. Each required field is then the value of the
    farthest item that has a non-empty parameter of that name, the default
    when there is none; the other fields are those of the first item of the
    list, the farthest hop. *)
Theorem by_all_trusted (items : list HthvItem) (defaults : Defaults)
  (trust : HttpForwardTrust)
  (Hall : forall item k, Z.testbit (trust_checker trust item k) 0 = true) :
  let report := HttpForwardRep_by items defaults trust in
  (forall f, report !! field_name f
             = Some (foldr (fun item acc => carry f acc item)
                           (def_field defaults f) items))
  /\ (forall k, k <> "by" -> k <> "for" -> k <> "host" -> k <> "proto" ->
        report !! k = flatten (default (last_item defaults) (head items)) !! k).
Proof.
  intros report. unfold report, HttpForwardRep_by, HttpForwardTrust_by. split.
  - intros f. rewrite report_of_walk_field, walk_field_fold.
    rewrite trusted_hops_all by exact Hall.
    rewrite firstn_all.
    rewrite foldl_rev_foldr. now destruct f.
  - intros k ? ? ? ?. rewrite report_of_other by assumption.
    rewrite walk_trusted_last, trusted_hops_all by exact Hall.
    rewrite firstn_all.
    now rewrite last_rev_head.
Qed.

Lemma by_all_trusted_witness :
  (forall (item : HthvItem) (k : Z),
     Z.testbit (trust_checker (MkTrust None trust_all_checker) item k) 0 = true)
  /\ HttpForwardRep_by [Scenario.hopA; Scenario.hopB] Scenario.defaults
       (MkTrust None trust_all_checker) !! field_name FHost
     = Some "api.example.com".
Proof.
  split; [reflexivity|].
  destruct (by_all_trusted [Scenario.hopA; Scenario.hopB] Scenario.defaults
              (MkTrust None trust_all_checker)) as [H _]; [reflexivity|].
  rewrite (H FHost). reflexivity.
Defined.

Lemma carry_nonempty f acc item :
  acc <> EmptyString -> carry f acc item <> EmptyString.
Proof.
  intros Hacc. unfold carry, Js.or_else.
  destruct (param_v _ _) as [[|c s]|]; cbn; congruence.
Qed.

Lemma foldl_carry_nonempty f (l : list HthvItem) : forall acc,
  acc <> EmptyString -> foldl (carry f) acc l <> EmptyString.
Proof.
  induction l as [|a l IH]; intros acc Hacc; [exact Hacc|].
  cbn [foldl]. apply IH. now apply carry_nonempty.
Qed.

(** X9: the four required fields are always in the report, and a field
    whose default is not empty is not empty in the report, whatever the items
    and the policy are: an empty parameter never replaces a value. *)
Theorem by_required_fields (items : list HthvItem) (defaults : Defaults)
  (trust : HttpForwardTrust) (f : Field) :
  exists v,
    HttpForwardRep_by items defaults trust !! field_name f = Some v
    /\ (def_field defaults f <> EmptyString -> v <> EmptyString).
Proof.
  unfold HttpForwardRep_by. rewrite report_of_walk_field, walk_field_fold.
  eexists. split; [reflexivity|]. intros Hd.
  apply foldl_carry_nonempty. now destruct f.
Qed.

(** ** Reports that are the defaults *)

Lemma report_of_init trustChecker defaults :
  report_of (walk_init trustChecker defaults) = spread_defaults defaults.
Proof.
  unfold report_of, spread_defaults. cbn.
  apply map_eq. intros k. unfold Js.set_prop.
  repeat (case_decide; [discriminate|]).
  rewrite !lookup_insert, !lookup_empty. repeat case_decide; congruence.
Qed.

Lemma by_nil defaults trust :
  HttpForwardRep_by [] defaults trust = spread_defaults defaults.
Proof. apply report_of_init. Qed.

(** X10: an untrusted nearest hop ends the loop at once. When the policy
    gives the last item of the list no [TrustCurrent] bit, and the record of
    the defaults no [TrustPrevious] bit, the report is the copy of the
    defaults, whatever the items in front are and whatever the policy says
    about them. *)
Theorem by_untrusted_nearest (far : list HthvItem) (b : HthvItem)
  (defaults : Defaults) (trust : HttpForwardTrust)
  (Hb : Z.testbit (trust_checker trust b 1) 0 = false)
  (Hlocal : Z.testbit (trust_checker trust (last_item defaults) 0) 1 = false) :
  HttpForwardRep_by (far ++ [b])%list defaults trust = spread_defaults defaults.
Proof.
  unfold HttpForwardRep_by, HttpForwardTrust_by.
  rewrite rev_app_distr. cbn [rev app walk].
  rewrite untrusted_bits. cbn [walk_init index trustedFlag].
  change (0 + 1) with 1. rewrite Hb, Hlocal. cbn [orb negb].
  rewrite (report_of_same_fields _ _ (stop_at_same_fields _ _ _)).
  apply report_of_init.
Qed.

Lemma by_untrusted_nearest_witness :
  Z.testbit (trust_checker Scenario.trust_none Scenario.hop 1) 0 = false
  /\ Z.testbit (trust_checker Scenario.trust_none
                  (last_item Scenario.defaults) 0) 1 = false
  /\ HttpForwardRep_by ([Scenario.hopA] ++ [Scenario.hop])%list
       Scenario.defaults Scenario.trust_none
     = spread_defaults Scenario.defaults.
Proof.
  split; [reflexivity|]. split; [reflexivity|].
  apply (by_untrusted_nearest [Scenario.hopA] Scenario.hop); reflexivity.
Defined.

(** ** The fields of the trusted record *)

Lemma flatten_step_lookup (k : string) (result : gmap string string)
  (prm : HthvItem) :
  k <> EmptyString -> k <> "__proto__" ->
  match Item.n prm with
  | Some n =>
      if Js.truthy_str n then Js.set_prop n (Item.v prm) result else result
  | None => result
  end !! k
  = if decide (Item.n prm = Some k) then Some (Item.v prm) else result !! k.
Proof.
  intros Hne Hproto. destruct (Item.n prm) as [n|]; [|now case_decide].
  destruct n as [|c n]; cbn [Js.truthy_str].
  - case_decide; [congruence|reflexivity].
  - unfold Js.set_prop. case_decide as Hp.
    + case_decide; [congruence|reflexivity].
    + rewrite lookup_insert. repeat case_decide; congruence.
Qed.

Lemma flatten_fold_lookup (k : string) (pl : list HthvItem) :
  k <> EmptyString -> k <> "__proto__" ->
  forall result found,
    result !! k = found ->
    foldl (fun result prm =>
             match Item.n prm with
             | Some n =>
                 if Js.truthy_str n then Js.set_prop n (Item.v prm) result
                 else result
             | None => result
             end) result pl !! k
    = foldl (fun found prm =>
               if decide (Item.n prm = Some k) then Some (Item.v prm)
               else found) found pl.
Proof.
  intros Hne Hproto. induction pl as [|prm pl IH]; intros result found Hres;
    [exact Hres|].
  cbn [foldl]. apply IH. rewrite flatten_step_lookup by assumption.
  now rewrite Hres.
Qed.

Lemma flatten_skips (k : string) (item : HthvItem) :
  k = EmptyString \/ k = "__proto__" -> flatten item !! k = None.
Proof.
  intros Hk. unfold flatten.
  assert (Hstep : forall (result : gmap string string) prm,
             result !! k = None ->
             match Item.n prm with
             | Some n =>
                 if Js.truthy_str n then Js.set_prop n (Item.v prm) result
                 else result
             | None => result
             end !! k = None).
  { intros result prm Hres. destruct (Item.n prm) as [n|]; [|exact Hres].
    destruct n as [|c n]; cbn [Js.truthy_str]; [exact Hres|].
    unfold Js.set_prop. case_decide as Hp; [exact Hres|].
    rewrite lookup_insert_ne; [exact Hres|].
    destruct Hk as [-> | ->]; congruence. }
  apply Hstep.
  generalize (∅ : gmap string string) (lookup_empty (M:=gmap string) (A:=string) k).
  induction (Item.pl item) as [|prm pl IH]; intros result Hres; [exact Hres|].
  cbn [foldl]. apply IH. now apply Hstep.
Qed.

(** X11: the fields that the trusted record gives to the report before the
    required fields are set. For a name [k] that is neither empty nor
    [__proto__], the value is the own value of the record when [k] is its own
    name, and else the value of the last parameter named [k] in its list, a
    later parameter replacing an earlier one; there is no field when no
    parameter has the name. The empty name and [__proto__] never become
    fields. *)
Theorem flatten_lookup (item : HthvItem) (k : string) :
  (k <> EmptyString -> k <> "__proto__" ->
   flatten item !! k
   = if decide (Item.n item = Some k) then Some (Item.v item)
     else last_named k (Item.pl item))
  /\ flatten item !! EmptyString = None
  /\ flatten item !! "__proto__" = None.
Proof.
  split; [|split; apply flatten_skips; auto].
  intros Hne Hproto. unfold flatten.
  rewrite flatten_step_lookup by assumption.
  case_decide; [reflexivity|].
  now apply flatten_fold_lookup.
Qed.

(** ** The dispatcher *)

Section DispatchMore.

Variable hthvParse : string -> list HthvItem.
Variable hthvParseTrivial : HeaderValue -> list string.
Variable hthvParseFirstTrivial : option HeaderValue -> option string.

Lemma flat_map_nil {A B} (g : A -> list B) (l : list A) :
  (forall a, In a l -> g a = []) -> flat_map g l = [].
Proof.
  induction l as [|a l IH]; intros H; [reflexivity|].
  cbn [flat_map]. rewrite (H a) by now left.
  apply IH. intros b Hb. apply H. now right.
Qed.

(** X12: a [Forwarded] header given as several values is always taken,
    also when it has no value or when its values have no items: the report
    is then the copy of the defaults, and the legacy headers are not looked
    at, whatever they are. *)
Theorem parse_iterable_without_items (fwds : list string)
  (xff xfh xfp : option HeaderValue) (defaults : Defaults)
  (trust : HttpForwardTrust)
  (Hempty : forall fwd, In fwd fwds -> hthvParse fwd = []) :
  HttpForwardRep_parse hthvParse hthvParseTrivial hthvParseFirstTrivial
    (MkHeaders (Some (Multiple fwds)) xff xfh xfp) defaults trust
  = spread_defaults defaults.
Proof.
  unfold HttpForwardRep_parse. cbn [forwarded truthy_header].
  rewrite flat_map_nil by exact Hempty. apply by_nil.
Qed.

(** X13: a [Forwarded] header given as one non-empty string and the same
    string given as the only one of several values lead to the same
    report. *)
Theorem parse_single_value (fwd : string) (xff xfh xfp : option HeaderValue)
  (defaults : Defaults) (trust : HttpForwardTrust)
  (Hfwd : fwd <> EmptyString) :
  HttpForwardRep_parse hthvParse hthvParseTrivial hthvParseFirstTrivial
    (MkHeaders (Some (Multiple [fwd])) xff xfh xfp) defaults trust
  = HttpForwardRep_parse hthvParse hthvParseTrivial hthvParseFirstTrivial
      (MkHeaders (Some (Single fwd)) xff xfh xfp) defaults trust.
Proof.
  unfold HttpForwardRep_parse. cbn [forwarded truthy_header flat_map].
  rewrite app_nil_r. destruct fwd; [congruence|reflexivity].
Qed.

Lemma hthvXForwardedItems_map (headers : Headers) :
  hthvXForwardedItems hthvParseTrivial hthvParseFirstTrivial headers
  = match x_forwarded_for headers with
    | Some value =>
        if truthy_header (Some value) then
          map (x_forwarded_item
                 (legacy_param "host"
                    (hthvParseFirstTrivial (x_forwarded_host headers)))
                 (legacy_param "proto"
                    (hthvParseFirstTrivial (x_forwarded_proto headers))))
              (hthvParseTrivial value)
        else []
    | None => []
    end.
Proof. reflexivity. Qed.

Lemma x_forwarded_item_fields host proto v :
  Item.n (x_forwarded_item host proto v) = Some "for"
  /\ Item.v (x_forwarded_item host proto v) = v
  /\ param_v (Item.p (x_forwarded_item host proto v)) "for" = Some v
  /\ delete "for" (Item.p (x_forwarded_item host proto v))
     = delete "for" (Item.p (x_forwarded_item host proto EmptyString))
  /\ Item.pl (x_forwarded_item host proto v)
     = Item.pl (x_forwarded_item host proto EmptyString).
Proof.
  destruct host, proto; cbn; unfold param_v;
    rewrite lookup_insert_eq, !delete_insert_eq; repeat split.
Qed.

(** X14: the items built from the legacy headers. Without a non-empty
    [X-Forwarded-For] there is none. With one, there is one item for each
    address that the trivial parser returns, in the same order, with the
    name [for] and the address as its value, found under [for] in its index
    as well; all the items have the same parameter list, and the same index
    apart from that entry. *)
Theorem x_forwarded_items_shape (headers : Headers) :
  let items :=
    hthvXForwardedItems hthvParseTrivial hthvParseFirstTrivial headers in
  (truthy_header (x_forwarded_for headers) = false -> items = [])
  /\ (forall value,
        x_forwarded_for headers = Some value ->
        truthy_header (Some value) = true ->
        map Item.v items = hthvParseTrivial value)
  /\ Forall (fun item =>
               Item.n item = Some "for"
               /\ param_v (Item.p item) "for" = Some (Item.v item)) items
  /\ (forall item1 item2, In item1 items -> In item2 items ->
        delete "for" (Item.p item1) = delete "for" (Item.p item2)
        /\ Item.pl item1 = Item.pl item2).
Proof.
  intros items. unfold items. rewrite hthvXForwardedItems_map.
  destruct (x_forwarded_for headers) as [value|].
  2:{ split; [reflexivity|]. split; [discriminate|].
      split; [constructor|intros ? ? H; destruct H]. }
  destruct (truthy_header (Some value)) eqn:Htruthy.
  2:{ split; [reflexivity|]. split; [congruence|].
      split; [constructor|intros ? ? H; destruct H]. }
  split; [discriminate|]. split; [|split].
  - intros value' [= <-] _. rewrite map_map.
    rewrite <- (map_id (hthvParseTrivial value)) at 2.
    apply map_ext. intros v. apply x_forwarded_item_fields.
  - apply List.Forall_map, Forall_forall. intros v _.
    match goal with
    | |- context [x_forwarded_item ?h ?q v] =>
        destruct (x_forwarded_item_fields h q v) as (Hn & Hv & Hp & _)
    end.
    split; [exact Hn|]. now rewrite Hp, Hv.
  - intros item1 item2 H1 H2.
    apply in_map_iff in H1 as (v1 & <- & _).
    apply in_map_iff in H2 as (v2 & <- & _).
    destruct (x_forwarded_item_fields
                (legacy_param "host"
                   (hthvParseFirstTrivial (x_forwarded_host headers)))
                (legacy_param "proto"
                   (hthvParseFirstTrivial (x_forwarded_proto headers))) v1)
      as (_ & _ & _ & -> & ->).
    destruct (x_forwarded_item_fields
                (legacy_param "host"
                   (hthvParseFirstTrivial (x_forwarded_host headers)))
                (legacy_param "proto"
                   (hthvParseFirstTrivial (x_forwarded_proto headers))) v2)
      as (_ & _ & _ & -> & ->).
    split; reflexivity.
Qed.

(** X15: without a [Forwarded] header and without a non-empty
    [X-Forwarded-For], the report is the copy of the defaults:
    [X-Forwarded-Host] and [X-Forwarded-Proto] alone change nothing,
    whatever the trust configuration is. *)
Theorem parse_without_forwarded_for (headers : Headers) (defaults : Defaults)
  (trust : HttpForwardTrust)
  (Hfwd : truthy_header (forwarded headers) = false)
  (Hxff : truthy_header (x_forwarded_for headers) = false) :
  HttpForwardRep_parse hthvParse hthvParseTrivial hthvParseFirstTrivial
    headers defaults trust
  = spread_defaults defaults.
Proof.
  unfold HttpForwardRep_parse. rewrite Hfwd. case_decide; [reflexivity|].
  rewrite hthvXForwardedItems_map.
  destruct (x_forwarded_for headers) as [value|]; [|apply by_nil].
  rewrite Hxff. apply by_nil.
Qed.

End DispatchMore.

Lemma parse_iterable_without_items_witness :
  let parse_blank (fwd : string) :=
    match fwd with EmptyString => [] | String _ _ => [Scenario.hop] end in
  (forall fwd, In fwd [EmptyString; EmptyString] -> parse_blank fwd = [])
  /\ HttpForwardRep_parse parse_blank parse_list parse_first
       (MkHeaders (Some (Multiple [EmptyString; EmptyString]))
                  (Some (Single "198.51.100.9")) None (Some (Single "https")))
       Scenario.defaults (MkTrust None trust_all_checker)
     = spread_defaults Scenario.defaults.
Proof.
  intros parse_blank.
  assert (H : forall fwd, In fwd [EmptyString; EmptyString] ->
                parse_blank fwd = []).
  { intros fwd [<-|[<-|[]]]; reflexivity. }
  split; [exact H|].
  apply (parse_iterable_without_items parse_blank parse_list parse_first
           [EmptyString; EmptyString] _ _ _ _ _ H).
Defined.

Lemma parse_single_value_witness :
  "for=203.0.113.5" <> EmptyString
  /\ HttpForwardRep_parse (fun _ => [Scenario.hop]) parse_list parse_first
       (MkHeaders (Some (Multiple ["for=203.0.113.5"])) None None None)
       Scenario.defaults Scenario.trust_first
     = HttpForwardRep_parse (fun _ => [Scenario.hop]) parse_list parse_first
         (MkHeaders (Some (Single "for=203.0.113.5")) None None None)
         Scenario.defaults Scenario.trust_first.
Proof.
  split; [discriminate|].
  apply (parse_single_value (fun _ => [Scenario.hop])). discriminate.
Defined.

Lemma parse_without_forwarded_for_witness :
  let headers :=
    MkHeaders None None (Some (Single "evil.example")) (Some (Single "https")) in
  truthy_header (forwarded headers) = false
  /\ truthy_header (x_forwarded_for headers) = false
  /\ HttpForwardRep_parse (fun _ => []) parse_list parse_first headers
       Scenario.defaults (MkTrust None trust_all_checker)
     = spread_defaults Scenario.defaults.
Proof.
  split; [reflexivity|]. split; [reflexivity|].
  apply (parse_without_forwarded_for (fun _ => []) parse_list parse_first);
    reflexivity.
Defined.

(** ** The report of the legacy headers *)

Lemma trusted_hops_le trustChecker (rest : list HthvItem) : forall st,
  (trusted_hops trustChecker rest st <= length rest)%nat.
Proof.
  induction rest as [|a rest IH]; intros st; [reflexivity|].
  cbn [trusted_hops length]. destruct (untrusted trustChecker a st); [lia|].
  specialize (IH (accept trustChecker a st)). lia.
Qed.

Lemma report_of_required_only (st : Walk) :
  (forall k, k <> "by" -> k <> "for" -> k <> "host" -> k <> "proto" ->
     flatten (trusted st) !! k = None) ->
  report_of st
  = <["proto" := trustedProto st]>
      (<["host" := trustedHost st]>
         (<["for" := trustedFor st]> (<["by" := trustedBy st]> ∅))).
Proof.
  intros Hother. apply map_eq. intros k.
  destruct (decide (k = "proto")) as [->|Hproto];
    [now rewrite report_of_proto, lookup_insert_eq|].
  destruct (decide (k = "host")) as [->|Hhost];
    [rewrite report_of_host;
     now rewrite lookup_insert_ne, lookup_insert_eq by discriminate|].
  destruct (decide (k = "for")) as [->|Hfor];
    [rewrite report_of_for;
     now rewrite !lookup_insert_ne, lookup_insert_eq by discriminate|].
  destruct (decide (k = "by")) as [->|Hby];
    [rewrite report_of_by;
     do 3 (rewrite lookup_insert_ne by discriminate);
     now rewrite lookup_insert_eq|].
  rewrite report_of_other, Hother by assumption.
  now rewrite !lookup_insert_ne, lookup_empty by congruence.
Qed.

Lemma carry_legacy_item host proto v f acc :
  carry f acc
    (x_forwarded_item (legacy_param "host" host) (legacy_param "proto" proto) v)
  = match f with
    | FBy => acc
    | FFor => Js.or_else (Some v) acc
    | FHost => Js.or_else host acc
    | FProto => Js.or_else proto acc
    end.
Proof.
  destruct host as [[|ch host]|], proto as [[|cp proto]|], f, v;
    vm_compute; reflexivity.
Qed.

Lemma or_else_idem o acc : Js.or_else o (Js.or_else o acc) = Js.or_else o acc.
Proof. destruct o as [[|c s]|]; reflexivity. Qed.

Lemma foldl_carry_legacy host proto f (l : list string) : forall acc,
  foldl (carry f) acc
    (map (x_forwarded_item (legacy_param "host" host)
            (legacy_param "proto" proto)) l)
  = match f with
    | FBy => acc
    | FFor => foldl (fun acc v => Js.or_else (Some v) acc) acc l
    | FHost => match l with [] => acc | _ :: _ => Js.or_else host acc end
    | FProto => match l with [] => acc | _ :: _ => Js.or_else proto acc end
    end.
Proof.
  induction l as [|v l IH]; intros acc; [now destruct f|].
  cbn [map foldl]. rewrite IH, carry_legacy_item.
  destruct f; try reflexivity; destruct l; auto using or_else_idem.
Qed.

Lemma flatten_legacy_item host proto v k :
  k <> "by" -> k <> "for" -> k <> "host" -> k <> "proto" ->
  flatten (x_forwarded_item (legacy_param "host" host)
             (legacy_param "proto" proto) v) !! k = None.
Proof.
  intros Hby Hfor Hhost Hproto.
  destruct host as [[|ch host]|], proto as [[|cp proto]|]; cbn;
    unfold Js.set_prop; repeat (case_decide; [discriminate|]);
    now rewrite ?lookup_insert_ne, lookup_empty by congruence.
Qed.

Section LegacyReport.

Variable hthvParse : string -> list HthvItem.
Variable hthvParseTrivial : HeaderValue -> list string.
Variable hthvParseFirstTrivial : option HeaderValue -> option string.

(** X16: what the legacy headers can do to the report. Without a
    [Forwarded] header and with the fallback not disabled, the report is the
    copy of the defaults when the loop accepts no item. When it accepts one
    or more, the report has the four required fields and no other: [by] is
    the one of the defaults; [for] is the address of the farthest accepted
    item whose address is not empty, the accepted addresses replacing the
    default in turn; [host] and [proto] are the first values of
    [X-Forwarded-Host] and of [X-Forwarded-Proto], or the defaults where such
    a value is missing or empty. *)
Theorem parse_legacy_report_shape (headers : Headers) (defaults : Defaults)
  (trust : HttpForwardTrust)
  (Hfwd : truthy_header (forwarded headers) = false)
  (Hfallback : xForwarded trust <> Some false) :
  let trustChecker := HttpForwardTrust_by trust in
  let items :=
    hthvXForwardedItems hthvParseTrivial hthvParseFirstTrivial headers in
  let accepted :=
    trusted_hops trustChecker (rev items) (walk_init trustChecker defaults) in
  HttpForwardRep_parse hthvParse hthvParseTrivial hthvParseFirstTrivial
    headers defaults trust
  = match accepted with
    | O => spread_defaults defaults
    | S _ =>
        <["proto" := Js.or_else
                       (hthvParseFirstTrivial (x_forwarded_proto headers))
                       (def_proto defaults)]>
          (<["host" := Js.or_else
                         (hthvParseFirstTrivial (x_forwarded_host headers))
                         (def_host defaults)]>
             (<["for" := foldl (fun acc v => Js.or_else (Some v) acc)
                               (def_for defaults)
                               (take accepted (rev (map Item.v items)))]>
                (<["by" := def_by defaults]> ∅)))
    end.
Proof.
  intros trustChecker items. cbv zeta.
  unfold HttpForwardRep_parse. rewrite Hfwd.
  case_decide; [contradiction|]. fold items.
  unfold HttpForwardRep_by. fold trustChecker.
  set (st := walk_init trustChecker defaults).
  set (X := x_forwarded_item
              (legacy_param "host"
                 (hthvParseFirstTrivial (x_forwarded_host headers)))
              (legacy_param "proto"
                 (hthvParseFirstTrivial (x_forwarded_proto headers)))).
  assert (Hitems : exists l, items = map X l).
  { unfold items. rewrite hthvXForwardedItems_map. fold X.
    destruct (x_forwarded_for headers) as [value|]; [|now exists []].
    destruct (truthy_header (Some value)); [eauto|now exists []]. }
  destruct Hitems as [l Hl].
  assert (Hrev : rev items = map X (rev l))
    by (rewrite Hl; symmetry; apply map_rev).
  assert (Hvs : map Item.v items = l).
  { rewrite Hl, map_map. rewrite <- (map_id l) at 2.
    apply map_ext. intros v. apply x_forwarded_item_fields. }
  rewrite Hvs.
  pose proof (trusted_hops_le trustChecker (rev items) st) as Hle.
  remember (trusted_hops trustChecker (rev items) st) as accepted eqn:Hacc.
  destruct accepted as [|k].
  - rewrite <- (app_nil_l (rev items)), walk_prefix
      by (rewrite app_nil_l, <- Hacc; cbn; lia).
    apply report_of_init.
  - assert (Htake : exists v l', take (S k) (rev l) = v :: l').
    { rewrite Hrev, length_map in Hle.
      destruct (rev l) as [|v l'']; [cbn in Hle; lia|]. cbn. eauto. }
    destruct Htake as (v & l' & Htake).
    assert (Hfold : forall f,
               walk_field (walk trustChecker (rev items) st) f
               = match f with
                 | FBy => def_by defaults
                 | FFor =>
                     foldl (fun acc v => Js.or_else (Some v) acc)
                           (def_for defaults) (take (S k) (rev l))
                 | FHost =>
                     Js.or_else
                       (hthvParseFirstTrivial (x_forwarded_host headers))
                       (def_host defaults)
                 | FProto =>
                     Js.or_else
                       (hthvParseFirstTrivial (x_forwarded_proto headers))
                       (def_proto defaults)
                 end).
    { intros f. rewrite walk_field_fold, <- Hacc, Hrev, firstn_map.
      unfold X. rewrite foldl_carry_legacy, Htake. now destruct f. }
    rewrite report_of_required_only.
    + pose proof (Hfold FBy) as Hby. pose proof (Hfold FFor) as Hfor.
      pose proof (Hfold FHost) as Hhost. pose proof (Hfold FProto) as Hproto.
      cbn [walk_field def_field] in Hby, Hfor, Hhost, Hproto.
      now rewrite Hby, Hfor, Hhost, Hproto.
    + intros key Hby Hfor Hhost Hproto.
      rewrite walk_trusted_last, <- Hacc, Hrev, firstn_map, Htake.
      destruct (last (map X (v :: l'))) as [item|] eqn:Hitem.
      * cbn [default from_option id].
        apply last_Some in Hitem as (pre & Hpre).
        assert (Hin : In item (map X (v :: l'))).
        { rewrite Hpre. apply in_or_app. right. now left. }
        apply in_map_iff in Hin as (w & <- & _).
        now apply flatten_legacy_item.
      * exfalso. apply last_None in Hitem. discriminate.
Qed.

End LegacyReport.

Lemma parse_legacy_report_shape_witness :
  truthy_header (forwarded Scenario.legacy) = false
  /\ xForwarded Scenario.trust_first <> Some false
  /\ HttpForwardRep_parse (fun _ => []) parse_list parse_first Scenario.legacy
       Scenario.defaults Scenario.trust_first
     = <["proto" := "https"]>
         (<["host" := "example.com"]>
            (<["for" := "198.51.100.9"]> (<["by" := "10.0.0.1"]> ∅))).
Proof.
  split; [reflexivity|]. split; [discriminate|].
  rewrite (parse_legacy_report_shape (fun _ => []) parse_list parse_first
             Scenario.legacy Scenario.defaults Scenario.trust_first);
    [reflexivity|reflexivity|discriminate].
Defined.

(** ** Request information *)

Lemma requestinfo_defaults_nonempty (request : IncomingMessage) (f : Field) :
  f <> FBy -> def_field (HthvRequestInfo_defaults request) f <> EmptyString.
Proof.
  destruct request as [[la port ra enc] host]. intros Hf.
  destruct f; [congruence|..]; cbn [def_field HthvRequestInfo_defaults
    def_for def_host def_proto connection localAddress localPort
    remoteAddress encrypted header_host].
  - destruct ra as [[|c a]|]; discriminate.
  - destruct host as [[|c h]|]; cbn [Js.or_else Js.truthy_str];
      try discriminate;
      (destruct la; [rewrite str_app_nil_l|]; rewrite str_app_cons;
       discriminate).
  - destruct enc as [[|]|]; discriminate.
Qed.

(** X17: the defaults collected from a request are filled in. The remote
    address is the one of the connection, and [unknown] when the connection
    has none or an empty one; the host is the [Host] header, and the local
    address and port when the header is missing or empty; the protocol is
    [https] exactly for an encrypted connection and [http] otherwise. Hence
    [for], [host] and [proto] are never empty. *)
Theorem requestinfo_defaults_filled (request : IncomingMessage) :
  let defaults := HthvRequestInfo_defaults request in
  let socket := connection request in
  def_by defaults = localAddress socket
  /\ (forall a, remoteAddress socket = Some a -> a <> EmptyString ->
        def_for defaults = a)
  /\ (remoteAddress socket = None \/ remoteAddress socket = Some EmptyString ->
        def_for defaults = "unknown")
  /\ (forall h, header_host request = Some h -> h <> EmptyString ->
        def_host defaults = h)
  /\ (header_host request = None \/ header_host request = Some EmptyString ->
        def_host defaults
        = localAddress socket +:+ ":" +:+ pretty (localPort socket))
  /\ (def_proto defaults
      = if decide (encrypted socket = Some true) then "https" else "http")
  /\ def_for defaults <> EmptyString
  /\ def_host defaults <> EmptyString
  /\ def_proto defaults <> EmptyString.
Proof.
  intros defaults socket. split; [reflexivity|].
  split; [intros a Ha Hne; unfold defaults; cbn; fold socket; rewrite Ha;
          now apply or_else_some|].
  split; [intros Ha; unfold defaults; cbn; fold socket;
          now apply or_else_absent|].
  split; [intros h Hh Hne; unfold defaults; cbn; rewrite Hh;
          now apply or_else_some|].
  split; [intros Hh; unfold defaults; cbn; now apply or_else_absent|].
  split; [unfold defaults; cbn; fold socket;
          destruct (encrypted socket) as [[|]|]; reflexivity|].
  split; [apply (requestinfo_defaults_nonempty request FFor); discriminate|].
  split; [apply (requestinfo_defaults_nonempty request FHost); discriminate|].
  apply (requestinfo_defaults_nonempty request FProto); discriminate.
Qed.

(** X18: with the defaults collected from a request, the [for], [host] and
    [proto] of the report are never empty, whatever the items and the policy
    are; so the protocol and the host from which the URL of the request is
    built are always there. *)
Theorem by_request_defaults_nonempty (request : IncomingMessage)
  (items : list HthvItem) (trust : HttpForwardTrust) (f : Field) :
  f <> FBy ->
  exists v,
    HttpForwardRep_by items (HthvRequestInfo_defaults request) trust
    !! field_name f = Some v
    /\ v <> EmptyString.
Proof.
  intros Hf. unfold HttpForwardRep_by.
  rewrite report_of_walk_field, walk_field_fold.
  eexists. split; [reflexivity|].
  apply foldl_carry_nonempty.
  pose proof (requestinfo_defaults_nonempty request f Hf) as H.
  now destruct f.
Qed.

Lemma by_request_defaults_nonempty_witness :
  FHost <> FBy
  /\ exists v,
       HttpForwardRep_by [Scenario.hopA]
         (HthvRequestInfo_defaults
            (MkRequest (MkSocket "10.0.0.1" 8080 None None) None))
         (MkTrust None trust_all_checker)
       !! field_name FHost = Some v
       /\ v <> EmptyString.
Proof.
  split; [discriminate|].
  apply (by_request_defaults_nonempty
           (MkRequest (MkSocket "10.0.0.1" 8080 None None) None)).
  discriminate.
Defined.
